(** * Project-context snapshot generator and resource shim

    A shallow embedding of
    - [scripts/generate-project-context.js] (the snapshot generator), and
    - the resource shim at the top of [src/index.js]
      ([loadProjectContext], [listProjectResources], [getProjectResource]),
    followed by the properties of both.

    JavaScript strings are sequences of UTF-16 code units; [length],
    [slice], [includes], [startsWith] and [===] all work on code units, so
    a string is a [list N] here.  The two builtins whose result depends on
    the engine's Unicode and locale tables ([String.prototype.toLowerCase]
    and [String.prototype.localeCompare]) and the platform's [path.sep]
    are fields of the class [Host].  The file system is a tree of
    entries; how the volume that holds it finds an entry by name, by its
    exact spelling or ignoring case, is a [volume]. *)

From Stdlib Require Import List NArith ZArith Bool Lia String Ascii DecimalString.
From Stdlib Require Import Sorting.Sorted Sorting.Permutation.
Import ListNotations.

Set Implicit Arguments.

(* ================================================================== *)
(** * JavaScript strings *)
(* ================================================================== *)

Module JS.

Definition jsstring := list N.

(** A string literal of the source, as code units. *)
Definition lit (s : string) : jsstring :=
  map N_of_ascii (list_ascii_of_string s).

(** [a === b] on strings. *)
Fixpoint streq (a b : jsstring) : bool :=
  match a, b with
  | [], [] => true
  | x :: a', y :: b' => N.eqb x y && streq a' b'
  | _, _ => false
  end.

(** [s.length], as a JavaScript number. *)
Definition len (s : jsstring) : Z := Z.of_nat (List.length s).

(** [s.startsWith(p)]. *)
Fixpoint startsWith (s p : jsstring) {struct p} : bool :=
  match p, s with
  | [], _ => true
  | y :: p', x :: s' => N.eqb x y && startsWith s' p'
  | _ :: _, [] => false
  end.

(** [s.includes(t)]: [t] occurs in [s] as a contiguous run. *)
Fixpoint includes (s t : jsstring) : bool :=
  startsWith s t ||
  match s with
  | [] => false
  | _ :: s' => includes s' t
  end.

(** [s.slice(0, n)] for a non-negative integer [n]. *)
Definition slice0 (s : jsstring) (n : Z) : jsstring :=
  firstn (Z.to_nat n) s.

(** [s.split(sep)] for a one-code-unit separator: the pieces between
    the occurrences of [sep] (always at least one piece). *)
Fixpoint split (sep : N) (s : jsstring) : list jsstring :=
  match s with
  | [] => [[]]
  | c :: s' =>
      if N.eqb c sep then [] :: split sep s'
      else match split sep s' with
           | [] => [[c]]
           | p :: ps => (c :: p) :: ps
           end
  end.

(** [parts.join(glue)]. *)
Fixpoint join (glue : jsstring) (parts : list jsstring) : jsstring :=
  match parts with
  | [] => []
  | [p] => p
  | p :: ps => p ++ glue ++ join glue ps
  end.

(** The code units [String.prototype.trim] strips: ECMAScript's
    WhiteSpace and LineTerminator productions. *)
Definition isWhiteSpace (c : N) : bool :=
  ((9 <=? c) && (c <=? 13) || (c =? 32) || (c =? 160) || (c =? 5760)
   || (8192 <=? c) && (c <=? 8202) || (c =? 8232) || (c =? 8233)
   || (c =? 8239) || (c =? 8287) || (c =? 12288) || (c =? 65279))%N.

Fixpoint trimStart (s : jsstring) : jsstring :=
  match s with
  | [] => []
  | c :: s' => if isWhiteSpace c then trimStart s' else s
  end.

Definition trimEnd (s : jsstring) : jsstring :=
  rev (trimStart (rev s)).

(** [s.trim()]. *)
Definition trim (s : jsstring) : jsstring := trimEnd (trimStart s).

(** Truthiness of a string: only the empty string is falsy. *)
Definition truthy (s : jsstring) : bool :=
  match s with [] => false | _ :: _ => true end.

(** [a || b] on strings. *)
Definition or_else (a b : jsstring) : jsstring :=
  if truthy a then a else b.

End JS.
Import JS.

(* ================================================================== *)
(** * The host: engine and platform *)
(* ================================================================== *)

(** [path.sep] is ["/"] on POSIX systems and a backslash on Windows. *)
Inductive os := Posix | Win32.

Definition slash : N := 47.
Definition backslash : N := 92.
Definition dot : N := 46.
Definition colon : N := 58.

Definition path_sep (p : os) : N :=
  match p with Posix => slash | Win32 => backslash end.

Class Host := {
  platform : os;
  (** [String.prototype.toLowerCase] *)
  toLowerCase : jsstring -> jsstring;
  (** [a.localeCompare(b)]: negative, zero or positive *)
  localeCompare : jsstring -> jsstring -> Z
}.

(** A host for running the model on concrete inputs: lower-casing of the
    Basic Latin letters and comparison by code units. *)
Definition asciiLower (s : jsstring) : jsstring :=
  map (fun c => if ((65 <=? c) && (c <=? 90))%N then (c + 32)%N else c) s.

Fixpoint codeUnitCompare (a b : jsstring) : Z :=
  match a, b with
  | [], [] => 0
  | [], _ :: _ => -1
  | _ :: _, [] => 1
  | x :: a', y :: b' =>
      match N.compare x y with
      | Lt => -1
      | Gt => 1
      | Eq => codeUnitCompare a' b'
      end
  end%Z.

Definition basicHost (p : os) : Host :=
  {| platform := p; toLowerCase := asciiLower; localeCompare := codeUnitCompare |}.

(** ** A host with a collation

    The [localeCompare] of an engine is the order of a collation, not
    the order of the code units: letters are first compared without
    regard to case, so that ["package"] comes before ["README"]; when
    nothing else tells two strings apart a lower-case letter comes
    before its upper-case form; and canonically equivalent strings
    compare as equal.  The host below compares in this way.  On strings
    of Basic Latin letters, digits, ["."] and ["/"] its order is that
    of the root collation that engines use by default; of the canonical
    equivalences it knows the two spellings of e with acute accent,
    U+00E9 and U+0065 U+0301. *)






(* ================================================================== *)
(** * Data model *)
(* ================================================================== *)

(** One entry of the [resources] array of the artifact. *)
Record resource := mkResource {
  uri : jsstring;
  path : jsstring;
  name : jsstring;
  mimeType : jsstring;
  text : jsstring;
  truncated : bool
}.

(** The artifact [project-context.json] as the shim reads it.
    [generatedAt] is [null] in the fallback context. *)
Record context := mkContext {
  generatedAt : option jsstring;
  summary : jsstring;
  resources : list resource
}.

(* ================================================================== *)
(** * The resource shim ([src/index.js]) *)
(* ================================================================== *)

(** ** Promises

    A promise is represented by the state it settles in.  [then_] runs its
    handler on fulfilment; a handler that throws or returns a rejected
    promise gives a rejected promise.  [catch_] turns a rejection into the
    value its handler returns. *)

Inductive settled (A : Type) : Type :=
| Fulfilled (value : A)
| Rejected (reason : jsstring).
Arguments Fulfilled {A} value.
Arguments Rejected {A} reason.

Definition then_ {A B : Type} (p : settled A) (f : A -> settled B) : settled B :=
  match p with
  | Fulfilled v => f v
  | Rejected e => Rejected e
  end.

Definition catch_ {A : Type} (p : settled A) (h : jsstring -> A) : settled A :=
  match p with
  | Fulfilled v => Fulfilled v
  | Rejected e => Fulfilled (h e)
  end.

(** What [fetch] fulfils with: the [ok] flag and the state in which
    [response.json()] settles (rejected on a parse error). *)
Record response := mkResponse {
  ok : bool;
  json : settled context
}.

Definition getFallbackProjectContext : context :=
  {| generatedAt := None;
     summary := lit "No local project context is available.";
     resources := [] |}.

(** The promise chain built in [loadProjectContext], as a function of the
    state in which [fetch(PROJECT_CONTEXT_ENDPOINT)] settles. *)
Definition contextChain (fetched : settled response) : settled context :=
  catch_
    (then_ fetched (fun response =>
       if negb (ok response) then Rejected (lit "project context not found")
       else json response))
    (fun _ => getFallbackProjectContext).

(** ** The memo reference

    [projectContextPromise] is the module-level [let]; a promise carries
    the number of the request that created it, which is its identity.
    [requests] counts the calls of [fetch] and [assignments] the writes to
    the memo reference. *)

Record promise := mkPromise {
  request : nat;
  outcome : settled context
}.

Record session := mkSession {
  projectContextPromise : option promise;
  requests : nat;
  assignments : nat
}.

Definition freshSession : session :=
  {| projectContextPromise := None; requests := 0; assignments := 0 |}.

Section Shim.

Context `{Host}.

(** [network n] is the state in which the [n]-th call of [fetch]
    settles. *)
Variable network : nat -> settled response.

(** [loadProjectContext] runs without suspension up to its [return], so
    one call is one step on the session. *)
Definition loadProjectContext (st : session) : promise * session :=
  match projectContextPromise st with
  | None =>
      let p := {| request := requests st;
                  outcome := contextChain (network (requests st)) |} in
      (p, {| projectContextPromise := Some p;
             requests := S (requests st);
             assignments := S (assignments st) |})
  | Some p => (p, st)
  end.

(** ** listProjectResources *)

Record listedResource := mkListed {
  listed_uri : jsstring;
  listed_name : jsstring;
  listed_description : jsstring;
  listed_mimeType : jsstring
}.

(** [(search || "").toLowerCase().trim()]; an absent argument is
    [None]. *)
Definition queryOf (search : option jsstring) : jsstring :=
  trim (toLowerCase (match search with
                     | Some s => or_else s []
                     | None => []
                     end)).

Definition matchesQuery (query : jsstring) (resource : resource) : bool :=
  if negb (truthy query) then true
  else includes (toLowerCase (uri resource)) query
       || includes (toLowerCase (path resource)) query
       || includes (toLowerCase (name resource)) query.

Definition describe (resource : resource) : listedResource :=
  {| listed_uri := uri resource;
     listed_name := name resource;
     listed_description := lit "Project file " ++ path resource;
     listed_mimeType := mimeType resource |}.

(** The body of [listProjectResources] after the [await]. *)
Definition listIn (context : context) (search : option jsstring)
  : list listedResource :=
  let query := queryOf search in
  map describe (filter (matchesQuery query) (resources context)).

(** ** getProjectResource *)

Record contentItem := mkContent {
  content_uri : jsstring;
  content_mimeType : jsstring;
  content_text : jsstring
}.

Record envelope := mkEnvelope { contents : list contentItem }.

(** The body of [getProjectResource] after the [await]. *)
Definition getIn (context : context) (u : jsstring) : envelope :=
  match find (fun item => streq (uri item) u) (resources context) with
  | None =>
      {| contents :=
           [ {| content_uri := u;
                content_mimeType := lit "text/plain";
                content_text := lit "Resource not found for uri: " ++ u |} ] |}
  | Some resource =>
      {| contents :=
           [ {| content_uri := uri resource;
                content_mimeType := or_else (mimeType resource) (lit "text/plain");
                content_text := text resource |} ] |}
  end.

(** ** The operations handed to the chat provider

    Each is an [async] function whose first action is
    [await loadProjectContext()]. *)

Inductive call :=
| LoadContext
| ListResources (search : option jsstring)
| GetResource (u : jsstring)
| GetSummary
| GetVersion.

Inductive answer :=
| AContext (c : context)
| AListing (l : list listedResource)
| AEnvelope (e : envelope)
| ASummary (s : jsstring)
| AVersion (generated : option jsstring) (resourceCount : Z).

Definition answerOf (c : call) (ctx : context) : answer :=
  match c with
  | LoadContext => AContext ctx
  | ListResources search => AListing (listIn ctx search)
  | GetResource u => AEnvelope (getIn ctx u)
  | GetSummary => ASummary (summary ctx)
  | GetVersion => AVersion (generatedAt ctx) (Z.of_nat (List.length (resources ctx)))
  end.

(** One call: the promise it awaits, the state its own promise settles
    in, and the session afterwards. *)
Definition perform (st : session) (c : call)
  : promise * settled answer * session :=
  let '(p, st') := loadProjectContext st in
  (p, then_ (outcome p) (fun ctx => Fulfilled (answerOf c ctx)), st').

(** A sequence of calls, in the order in which they start. *)
Fixpoint performAll (st : session) (cs : list call)
  : list (promise * settled answer) * session :=
  match cs with
  | [] => ([], st)
  | c :: cs' =>
      let '(p, a, st') := perform st c in
      let '(rest, st'') := performAll st' cs' in
      ((p, a) :: rest, st'')
  end.

End Shim.

(* ================================================================== *)
(** * The snapshot generator ([scripts/generate-project-context.js]) *)
(* ================================================================== *)

(** ** Configuration constants *)

Definition IGNORED_DIRS : list jsstring :=
  map lit [".git"; "node_modules"; "build"; "coverage"; ".vscode"; ".idea"]%string.

Definition INCLUDED_EXTENSIONS : list jsstring :=
  map lit [".js"; ".jsx"; ".ts"; ".tsx"; ".json"; ".css"; ".md"; ".txt"; ".html"]%string.

Definition EXCLUDED_FILES : list jsstring :=
  map lit [".env.local"; ".env"; "package-lock.json"]%string.

Definition MAX_FILES : Z := 120.
Definition MAX_CHARS_PER_FILE : Z := 12000.
Definition MAX_TOTAL_CHARS : Z := 500000.

(** The text appended to a truncated file, with its two leading line
    feeds. *)
Definition truncationMarker : jsstring :=
  [10; 10]%N ++ lit "/* content truncated */".

(** [set.has(x)] for a [Set] of strings. *)
Definition has (set : list jsstring) (x : jsstring) : bool :=
  existsb (streq x) set.

(** ** The file system

    A directory is the list of its entries in the order in which
    [fs.readdirSync] returns them; the project root is such a list.  A
    path below the root is the list of the names along it. *)

#[warnings="-register-all"]
Inductive entry :=
| File (fileName : jsstring) (content : jsstring)
| Dir (dirName : jsstring) (entries : list entry).

Definition entryName (e : entry) : jsstring :=
  match e with File n _ => n | Dir n _ => n end.

(** Induction on entries, with the hypothesis for every entry of a
    directory. *)
Unset Implicit Arguments.

Section EntryInduction.

Variable P : entry -> Prop.
Hypothesis onFile : forall n c, P (File n c).
Hypothesis onDir : forall n sub, Forall P sub -> P (Dir n sub).

Fixpoint entry_induction (e : entry) : P e :=
  match e with
  | File n c => onFile n c
  | Dir n sub =>
      onDir n sub ((fix each (l : list entry) : Forall P l :=
                  match l with
                  | [] => Forall_nil P
                  | x :: l' => Forall_cons x (entry_induction x) (each l')
                  end) sub)
  end.

End EntryInduction.

Set Implicit Arguments.

(** [fs.readFileSync(p, "utf8")]; [None] when it throws (no such entry, a
    directory at the end of the path, a file in the middle of it). *)
Fixpoint readFileSync (es : list entry) (p : list jsstring) : option jsstring :=
  match p with
  | [] => None
  | n :: rest =>
      (fix look (es : list entry) : option jsstring :=
         match es with
         | [] => None
         | e :: es' =>
             if streq (entryName e) n then
               match e, rest with
               | File _ c, [] => Some c
               | Dir _ sub, _ :: _ => readFileSync sub rest
               | _, _ => None
               end
             else look es'
         end) es
  end.

(** ** Names on a volume

    A volume that is sensitive to case finds the entry whose name is
    the one asked for, code unit by code unit.  A volume that is not
    (the default on Windows and on macOS) folds both names first; the
    folding is the volume's own table.  No volume holds two entries
    of a directory that it takes for the same name.  [fs.readdirSync]
    returns names as they are spelled on the volume, and such a name
    designates its own entry on either kind of volume: the reads of
    [loadResources] are of paths made of such names. *)
Inductive volume :=
| CaseSensitive
| CaseFolding (fold : jsstring -> jsstring).

(** The volume takes the name [a] of an entry for the name [b] of a
    path. *)
Definition sameName (v : volume) (a b : jsstring) : bool :=
  match v with
  | CaseSensitive => streq a b
  | CaseFolding fold => streq (fold a) (fold b)
  end.



(** ** [path.basename] and [path.extname]

    Node's [path] module: on POSIX only ["/"] separates, on Windows the
    backslash does too and a leading drive letter with its colon is
    skipped.  Trailing separators are ignored; the base name is what
    follows the last remaining separator.  The extension runs from the
    last dot of the base name to its end, and is empty when there is no
    dot, when that dot is the first character of the base name, or when
    the base name is [".."]. *)

Definition isSeparator (p : os) (c : N) : bool :=
  N.eqb c slash || match p with Posix => false | Win32 => N.eqb c backslash end.

Definition isDriveLetter (c : N) : bool :=
  ((65 <=? c) && (c <=? 90) || (97 <=? c) && (c <=? 122))%N.

Definition skipDrive (p : os) (s : jsstring) : jsstring :=
  match p, s with
  | Win32, c :: c' :: s' =>
      if isDriveLetter c && N.eqb c' colon then s' else s
  | _, _ => s
  end.

Fixpoint dropWhile (f : N -> bool) (s : jsstring) : jsstring :=
  match s with
  | [] => []
  | c :: s' => if f c then dropWhile f s' else s
  end.

Fixpoint takeWhile (f : N -> bool) (s : jsstring) : jsstring :=
  match s with
  | [] => []
  | c :: s' => if f c then c :: takeWhile f s' else []
  end.

(** The base name, reversed. *)
Definition revBasename (p : os) (s : jsstring) : jsstring :=
  takeWhile (fun c => negb (isSeparator p c))
            (dropWhile (isSeparator p) (rev (skipDrive p s))).

Definition basename (p : os) (s : jsstring) : jsstring :=
  rev (revBasename p s).

Definition extname (p : os) (s : jsstring) : jsstring :=
  let rb := revBasename p s in
  let revExt := takeWhile (fun c => negb (N.eqb c dot)) rb in
  match dropWhile (fun c => negb (N.eqb c dot)) rb with
  | [] => []                                  (* no dot *)
  | _ :: [] => []                             (* the dot comes first *)
  | _ :: _ :: _ =>
      if streq rb [dot; dot] then [] else dot :: rev revExt
  end.

Section Generator.

Context `{Host}.

Definition sep : N := path_sep platform.

Definition toPosixPath (filePath : jsstring) : jsstring :=
  join [slash] (split sep filePath).

(** [content.includes("\u0000")] *)
Definition isBinaryLike (content : jsstring) : bool :=
  includes content [0%N].

Definition getMimeType (filePath : jsstring) : jsstring :=
  let ext := toLowerCase (extname platform filePath) in
  if streq ext (lit ".json") then lit "application/json"
  else if streq ext (lit ".md") then lit "text/markdown"
  else if streq ext (lit ".css") then lit "text/css"
  else if streq ext (lit ".html") then lit "text/html"
  else lit "text/plain".

(** ** collectFiles

    [fullPath] is kept as the list of names below [PROJECT_ROOT]:
    [path.join(dirPath, entry.name)] adds one name to it and
    [path.relative(PROJECT_ROOT, fullPath)] joins the names with
    [path.sep]. *)

Record fileRef := mkFileRef {
  fullPath : list jsstring;
  relativePath : jsstring
}.

Definition relative (full : list jsstring) : jsstring := join [sep] full.

(** The three [continue] tests on a file that is not a directory. *)
Definition skipsFile (entryName normalized : jsstring) : bool :=
  negb (has INCLUDED_EXTENSIONS (toLowerCase (extname platform entryName)))
  || has EXCLUDED_FILES entryName
  || (startsWith normalized (lit "public/")
      && negb (streq normalized (lit "public/index.html"))).

(** One iteration of the [for] loop of [collectFiles(dirPath, acc)];
    the result is [acc] after the iteration. *)
Fixpoint collectEntry (dirPath : list jsstring) (e : entry) (acc : list fileRef)
  : list fileRef :=
  match e with
  | Dir n sub =>
      if has IGNORED_DIRS n then acc
      else fold_left (fun acc e' => collectEntry (dirPath ++ [n]) e' acc) sub acc
  | File n _ =>
      let full := dirPath ++ [n] in
      let normalized := toPosixPath (relative full) in
      if skipsFile n normalized then acc
      else acc ++ [ {| fullPath := full; relativePath := normalized |} ]
  end.

Definition collectFiles (dirPath : list jsstring) (es : list entry)
           (acc : list fileRef) : list fileRef :=
  fold_left (fun acc e => collectEntry dirPath e acc) es acc.

(** ** [files.sort(...)]

    [Array.prototype.sort] is stable; with a consistent comparator any
    stable sort gives the same array, here by insertion. *)

Definition compareFiles (a b : fileRef) : Z :=
  localeCompare (relativePath a) (relativePath b).

Fixpoint insertFile (f : fileRef) (sorted : list fileRef) : list fileRef :=
  match sorted with
  | [] => [f]
  | g :: rest =>
      if (compareFiles f g <=? 0)%Z then f :: g :: rest
      else g :: insertFile f rest
  end.

Definition sortFiles (files : list fileRef) : list fileRef :=
  fold_right insertFile [] files.

(** ** The loop of loadResources *)

Definition makeResource (file : fileRef) (text : jsstring) (isTruncated : bool)
  : resource :=
  {| uri := lit "file:///" ++ relativePath file;
     path := relativePath file;
     name := basename platform (relativePath file);
     mimeType := getMimeType (relativePath file);
     text := text;
     truncated := isTruncated |}.

(** [loadLoop read files resources totalChars] runs the [for] loop over
    the remaining [files]; [read] is [fs.readFileSync] on the tree, and
    a read that throws ends the run with [None]. *)
Fixpoint loadLoop (read : list jsstring -> option jsstring)
         (files : list fileRef) (resources : list resource) (totalChars : Z)
  : option (list resource) :=
  match files with
  | [] => Some resources
  | file :: rest =>
      if (MAX_FILES <=? Z.of_nat (List.length resources))%Z then Some resources
      else if (MAX_TOTAL_CHARS <=? totalChars)%Z then Some resources
      else
        match read (fullPath file) with
        | None => None
        | Some rawContent =>
            if isBinaryLike rawContent then loadLoop read rest resources totalChars
            else
              let availableChars := Z.max 0 (MAX_TOTAL_CHARS - totalChars) in
              let cap := Z.min MAX_CHARS_PER_FILE availableChars in
              if (cap =? 0)%Z then Some resources
              else
                let isTruncated := (cap <? len rawContent)%Z in
                let text := if isTruncated
                            then slice0 rawContent cap ++ truncationMarker
                            else rawContent in
                loadLoop read rest
                         (resources ++ [makeResource file text isTruncated])
                         (totalChars + len text)
        end
  end.

Definition loadResources (root : list entry) : option (list resource) :=
  loadLoop (readFileSync root) (sortFiles (collectFiles [] root [])) [] 0.

(** ** buildSummary and main *)

Definition numberToString (n : nat) : jsstring :=
  lit (NilEmpty.string_of_uint (Nat.to_uint n)).

Definition buildSummary (resources : list resource) : jsstring :=
  let inSrc := fun file => startsWith (path file) (lit "src/") in
  let sourceFiles := List.length (filter inSrc resources) in
  let configFiles := List.length (filter (fun file => negb (inSrc file)) resources) in
  join (lit " ")
    [ lit "This is a React tic-tac-toe project with a Tambo chat interface.";
      lit "Context contains " ++ numberToString (List.length resources)
        ++ lit " files (" ++ numberToString sourceFiles
        ++ lit " source, " ++ numberToString configFiles
        ++ lit " config/docs).";
      lit "Use listed resources to answer project-specific questions and include file paths when possible." ].

(** [OUTPUT_FILE], below [PROJECT_ROOT]. *)
Definition OUTPUT_FILE : list jsstring :=
  [lit "public"; lit "project-context.json"].



End Generator.

(* ================================================================== *)
(** * The chat page ([src/index.js]) *)
(* ================================================================== *)

(** ** Message content

    The values [getMessageText] can be handed: a string, an array of
    parts, or anything else.  Numbers are the integers; an object is the
    list of its properties. *)

#[warnings="-register-all"]
Inductive jsvalue :=
| VUndefined
| VNull
| VBool (b : bool)
| VNumber (n : Z)
| VString (s : jsstring)
| VObject (fields : list (jsstring * jsvalue))
| VArray (items : list jsvalue).

(** [!v] is [negb (valueTruthy v)]. *)
Definition valueTruthy (v : jsvalue) : bool :=
  match v with
  | VUndefined | VNull => false
  | VBool b => b
  | VNumber n => negb (n =? 0)%Z
  | VString s => truthy s
  | VObject _ | VArray _ => true
  end.

(** [obj.key]: [undefined] when the object has no such property. *)
Fixpoint getField (fields : list (jsstring * jsvalue)) (key : jsstring) : jsvalue :=
  match fields with
  | [] => VUndefined
  | (k, v) :: rest => if streq k key then v else getField rest key
  end.

(** [String(n)] for an integer. *)
Definition integerToString (n : Z) : jsstring :=
  if (n <? 0)%Z then lit "-" ++ numberToString (Z.to_nat (- n))
  else numberToString (Z.to_nat n).

(** The callback of [content.map(...)]: the text of a text part, the
    empty string for anything else. *)
Definition partText (part : jsvalue) : jsstring :=
  if negb (valueTruthy part) then []
  else match part with
       | VObject fields =>
           match getField fields (lit "type"), getField fields (lit "text") with
           | VString type, VString text =>
               if streq type (lit "text") then text else []
           | _, _ => []
           end
       | _ => []
       end.

Definition lineFeed : jsstring := [10%N].

Definition getMessageText (content : jsvalue) : jsstring :=
  if negb (valueTruthy content) then []
  else match content with
       | VString s => s
       | VArray items => join lineFeed (map partText items)
       | VBool b => if b then lit "true" else lit "false"
       | VNumber n => integerToString n
       | VObject _ => lit "[object Object]"
       | VUndefined => lit "undefined"
       | VNull => lit "null"
       end.

(** ** The submit handler of [ChatInterface]

    [onSubmit value isPending] tells whether [submit()] is called. *)
Definition onSubmit (value : jsstring) (isPending : bool) : bool :=
  if negb (truthy (trim value)) || isPending then false else true.

(* ================================================================== *)
(** * The game ([src/index.js], class [Game]) *)
(* ================================================================== *)

Inductive player := X | O.

(** A square holds a mark or [null]; reading past the end of the array
    gives [undefined], which is as falsy. *)
Definition board := list (option player).

Record gameState := mkGame {
  history : list board;
  stepNumber : nat;
  xIsNext : bool
}.

(** The state the constructor sets. *)
Definition initialGame : gameState :=
  {| history := [repeat None 9]; stepNumber := 0; xIsNext := true |}.

(** [squares[i]] *)
Definition square (squares : board) (i : nat) : option player :=
  nth i squares None.

(** [squares[i] = mark]: past the end the array grows, with holes in
    between. *)
Fixpoint setSquare (squares : board) (i : nat) (mark : player) : board :=
  match squares, i with
  | [], 0 => [Some mark]
  | [], S i' => None :: setSquare [] i' mark
  | _ :: rest, 0 => Some mark :: rest
  | c :: rest, S i' => c :: setSquare rest i' mark
  end.

Definition isSome (A : Type) (o : option A) : bool :=
  match o with Some _ => true | None => false end.

Definition playerName (p : player) : jsstring :=
  match p with X => lit "X" | O => lit "O" end.

Section Game.

(** The helper [calculateWinner] of [./helpers/calculateWinner]: the
    winner of a board, or [null]. *)
Variable calculateWinner : board -> option player.

(** [handleClick(i)]; [None] when it throws because there is no current
    board. *)
Definition handleClick (st : gameState) (i : nat) : option gameState :=
  let history := firstn (stepNumber st + 1) (history st) in
  match nth_error history (List.length history - 1) with
  | None => None
  | Some current =>
      let squares := current in
      if isSome (calculateWinner squares) || isSome (square squares i)
      then Some st
      else
        Some {| history := history
                           ++ [setSquare squares i (if xIsNext st then X else O)];
                stepNumber := List.length history;
                xIsNext := negb (xIsNext st) |}
  end.

(** [jumpTo(step)] *)
Definition jumpTo (st : gameState) (step : nat) : gameState :=
  {| history := history st;
     stepNumber := step;
     xIsNext := Nat.even step |}.

(** What [render] computes: the status line, the winner and the board
    shown; [None] when it throws because [history[stepNumber]] is not
    there. *)
Definition render (st : gameState) : option (jsstring * option player * board) :=
  match nth_error (history st) (stepNumber st) with
  | None => None
  | Some current =>
      let winner := calculateWinner current in
      let status :=
        match winner with
        | Some w => lit "Winner: " ++ playerName w
        | None => lit "Next player: " ++ (if xIsNext st then lit "X" else lit "O")
        end in
      Some (status, winner, current)
  end.

End Game.

(* ================================================================== *)
(** * Sample trees *)
(* ================================================================== *)

(** [count] code units ["a"]. *)
Definition filler (count : N) : jsstring :=
  N.iter count (cons 97%N) [].

(** [count] files [f100.js], [f101.js], ... with the same content. *)
Definition manyFiles (count : nat) (content : jsstring) : list entry :=
  map (fun i => File (lit "f" ++ numberToString (100 + i) ++ lit ".js") content)
      (seq 0 count).

(** One file, one code unit longer than the per-file cap. *)
Definition longFileTree : list entry := [File (lit "a.js") (filler 12001)].

(** Forty-two such files. *)
Definition longFilesTree : list entry := manyFiles 42 (filler 12001).

(** One more small file than [MAX_FILES]. *)
Definition crowdedTree : list entry := manyFiles 121 (lit "x").

(** The tree of the specification's scenario, with a [public]
    directory. *)
Definition sampleTree : list entry :=
  [ File (lit "README.md") (filler 50);
    Dir (lit "src") [ File (lit "App.js") (filler 500);
                      File (lit "logo.png") [137; 80; 78; 71; 0; 1]%N ];
    Dir (lit "node_modules") [ Dir (lit "x") [ File (lit "index.js") (lit "x") ] ];
    Dir (lit "public") [ File (lit "index.html") (lit "<html></html>");
                         File (lit "manifest.json") (lit "{}") ];
    File (lit ".env") (lit "KEY=1");
    File (lit "package.json") (lit "{}") ].


(** The snapshot of the sample tree on a POSIX host. *)
Definition sampleSnapshot : list resource :=
  Eval vm_compute in
    match loadResources (H := basicHost Posix) sampleTree with
    | Some rs => rs
    | None => []
    end.

Definition sampleContext : context :=
  {| generatedAt := Some (lit "2026-01-01T00:00:00.000Z");
     summary := lit "A sample.";
     resources := sampleSnapshot |}.

(** The resource of the sample snapshot for [src/App.js]. *)
Definition appResource : resource :=
  nth 3 sampleSnapshot (mkResource [] [] [] [] [] false).

(** A network that is down, one that answers 404, one that answers with
    a body that is not JSON, and one that serves the sample context. *)
Definition networkDown : nat -> settled response :=
  fun _ => Rejected (lit "TypeError: Failed to fetch").

Definition networkNotFound : nat -> settled response :=
  fun _ => Fulfilled {| ok := false; json := Rejected (lit "SyntaxError") |}.

Definition networkGarbled : nat -> settled response :=
  fun _ => Fulfilled {| ok := true; json := Rejected (lit "SyntaxError") |}.

Definition networkServing : nat -> settled response :=
  fun _ => Fulfilled {| ok := true; json := Fulfilled sampleContext |}.







(** The resource of the sample snapshot for [README.md]. *)
Definition readmeResource : resource :=
  nth 0 sampleSnapshot (mkResource [] [] [] [] [] false).

(** A message of three parts: a text, an image, a text. *)
Definition sampleMessage : list jsvalue :=
  [ VObject [(lit "type", VString (lit "text")); (lit "text", VString (lit "Hello"))];
    VObject [(lit "type", VString (lit "image")); (lit "url", VString (lit "a.png"))];
    VObject [(lit "type", VString (lit "text")); (lit "text", VString (lit "world"))] ].

(** A winner function for the examples: three equal marks on one of the
    eight lines of the board. *)
Definition threeInARow (squares : board) : option player :=
  let line := fun '(a, b, c) =>
    match square squares a, square squares b, square squares c with
    | Some X, Some X, Some X => Some X
    | Some O, Some O, Some O => Some O
    | _, _, _ => None
    end in
  match filter (fun o => isSome o)
               (map line [(0, 1, 2); (3, 4, 5); (6, 7, 8); (0, 3, 6);
                          (1, 4, 7); (2, 5, 8); (0, 4, 8); (2, 4, 6)]) with
  | w :: _ => w
  | [] => None
  end.

(** The game after X took the centre and O the first corner. *)
Definition sampleGame : gameState :=
  {| history := [ repeat None 9;
                  setSquare (repeat None 9) 4 X;
                  setSquare (setSquare (repeat None 9) 4 X) 0 O ];
     stepNumber := 2;
     xIsNext := true |}.

(* ================================================================== *)
(** * Vocabulary of the specification *)
(* ================================================================== *)

Definition blank (s : jsstring) : Prop :=
  Forall (fun c => isWhiteSpace c = true) s.

(** The sessions a page can be in: nothing requested yet, or the one
    request made and its promise stored. *)
Definition sessionInv (st : session) : Prop :=
  match projectContextPromise st with
  | None => requests st = 0 /\ assignments st = 0
  | Some p => requests st = 1 /\ assignments st = 1 /\ request p = 0
  end.

Section Vocabulary.

Context `{Host}.

(** What the engine's case mapping has to respect for a blank search to
    stay blank: white space has no lower-case form other than white
    space.  (The empty string is blank.) *)
Definition lowerKeepsWhiteSpace : Prop :=
  forall s, blank s -> blank (toLowerCase s).

(** [s] contains [t] as a substring, ignoring case. *)
Definition containsIgnoringCase (s t : jsstring) : bool :=
  includes (toLowerCase s) (toLowerCase t).

(** The uri, path or name of the resource contains the search text,
    ignoring case. *)
Definition mentions (searchText : jsstring) (r : resource) : bool :=
  containsIgnoringCase (uri r) searchText
  || containsIgnoringCase (path r) searchText
  || containsIgnoringCase (name r) searchText.

(** The lower-cased uri, path or name of the resource contains the
    search text once that is lower-cased and trimmed. *)
Definition mentionsTrimmed (searchText : jsstring) (r : resource) : bool :=
  let needle := trim (toLowerCase searchText) in
  includes (toLowerCase (uri r)) needle
  || includes (toLowerCase (path r)) needle
  || includes (toLowerCase (name r)) needle.

(** *** The generator *)

(** The sum of the lengths of the [text] fields. *)
Definition totalChars (rs : list resource) : Z :=
  fold_right (fun r sum => len (text r) + sum)%Z 0%Z rs.

(** The bound the loop keeps on one [text]: the cap is on the content
    that is retained, and the marker comes on top of it when the file
    was cut. *)
Definition withinFileCap (r : resource) : Prop :=
  if truncated r
  then exists kept, text r = kept ++ truncationMarker
                    /\ (len kept <= MAX_CHARS_PER_FILE)%Z
  else (len (text r) <= MAX_CHARS_PER_FILE)%Z.

(** Every resource was pushed while the running total was below the
    total cap. *)
Definition pushedBelowCap (rs : list resource) : Prop :=
  forall before r after,
    rs = before ++ r :: after -> (totalChars before < MAX_TOTAL_CHARS)%Z.

(** The reference [collectFiles] pushes for the file [n] found along
    [dirs] below the directory [dirPath]. *)
Definition refOf (dirPath dirs : list jsstring) (n : jsstring) : fileRef :=
  {| fullPath := dirPath ++ dirs ++ [n];
     relativePath := toPosixPath (relative (dirPath ++ dirs ++ [n])) |}.

(** The order the sort puts files in. *)
Definition fileLe (a b : fileRef) : Prop := (compareFiles a b <= 0)%Z.

(** The file can be read and has no NUL in it. *)
Definition keeps (read : list jsstring -> option jsstring) (f : fileRef) : bool :=
  match read (fullPath f) with
  | Some raw => negb (isBinaryLike raw)
  | None => false
  end.

(** [localeCompare] as an order: any two strings are comparable, and
    the comparison is transitive (ECMA-262 asks [localeCompare] to be a
    consistent comparator). *)
Definition consistentComparator : Prop :=
  (forall a b, localeCompare a b <= 0 \/ localeCompare b a <= 0)%Z
  /\ (forall a b c, localeCompare a b <= 0 -> localeCompare b c <= 0 ->
                    localeCompare a c <= 0)%Z.

(** Ascending in the order of [localeCompare]. *)
Definition ascending (paths : list jsstring) : Prop :=
  StronglySorted (fun a b => localeCompare a b <= 0)%Z paths.

(** A name a directory entry can have on the platform: without ["/"],
    and on Windows without backslash and colon. *)
Definition reservedChar (c : N) : bool :=
  N.eqb c slash
  || match platform with
     | Posix => false
     | Win32 => N.eqb c backslash || N.eqb c colon
     end.

Definition validName (n : jsstring) : bool :=
  negb (existsb reservedChar n).

Fixpoint distinct (names : list jsstring) : bool :=
  match names with
  | [] => true
  | n :: rest => negb (has rest n) && distinct rest
  end.

(** A tree as a file system holds it: valid names, no two entries of a
    directory with the same name. *)
Fixpoint validEntry (e : entry) : bool :=
  validName (entryName e)
  && match e with
     | File _ _ => true
     | Dir _ sub => forallb validEntry sub && distinct (map entryName sub)
     end.

Definition validTree (root : list entry) : bool :=
  forallb validEntry root && distinct (map entryName root).

(** [fileAt es dirs n c]: below the directory listing [es], along the
    directories [dirs], there is a file named [n] with content [c]. *)
Inductive fileAt : list entry -> list jsstring -> jsstring -> jsstring -> Prop :=
| fileHere es n c :
    In (File n c) es -> fileAt es [] n c
| fileBelow es d sub dirs n c :
    In (Dir d sub) es -> fileAt sub dirs n c -> fileAt es (d :: dirs) n c.

(** The selection rules of the specification, on the directories
    leading to a file and on its name. *)
Definition outsideIgnored (dirs : list jsstring) : Prop :=
  Forall (fun d => has IGNORED_DIRS d = false) dirs.

Definition extensionAllowed (n : jsstring) : Prop :=
  has INCLUDED_EXTENSIONS (toLowerCase (extname platform n)) = true.

Definition nameDenied (n : jsstring) : Prop :=
  has EXCLUDED_FILES n = true.

Definition underPublic (dirs : list jsstring) : Prop :=
  exists rest, dirs = lit "public" :: rest.

Definition allowedEntryFile (dirs : list jsstring) (n : jsstring) : Prop :=
  dirs = [lit "public"] /\ n = lit "index.html".

Definition selected (dirs : list jsstring) (n : jsstring) : Prop :=
  outsideIgnored dirs
  /\ extensionAllowed n
  /\ ~ nameDenied n
  /\ (underPublic dirs -> allowedEntryFile dirs n).





(** The same tree with the entries of its directories listed in
    another order. *)
Inductive sameEntry : entry -> entry -> Prop :=
| sameFile n c : sameEntry (File n c) (File n c)
| sameDir n sub sub' : sameListing sub sub' -> sameEntry (Dir n sub) (Dir n sub')
with sameListing : list entry -> list entry -> Prop :=
| sameNil : sameListing [] []
| sameSkip e e' l l' :
    sameEntry e e' -> sameListing l l' -> sameListing (e :: l) (e' :: l')
| sameSwap x y l : sameListing (y :: x :: l) (x :: y :: l)
| sameTrans l l' l'' :
    sameListing l l' -> sameListing l' l'' -> sameListing l l''.

(** [p] is the POSIX-style path of a file of the tree that the rules
    select and whose content has no NUL. *)
Definition eligiblePath (root : list entry) (p : jsstring) : Prop :=
  exists dirs n c,
    fileAt root dirs n c
    /\ selected dirs n
    /\ ~ In 0%N c
    /\ p = join [slash] (dirs ++ [n]).

End Vocabulary.

Scheme sameEntry_mutual := Minimality for sameEntry Sort Prop
  with sameListing_mutual := Minimality for sameListing Sort Prop.

Combined Scheme same_mutual from sameEntry_mutual, sameListing_mutual.




(** Every entry of the listing that the volume takes for [n] is spelled
    [n]. *)
Definition spelledExactly (v : volume) (n : jsstring) (es : list entry) : bool :=
  forallb (fun e => implb (sameName v (entryName e) n) (streq (entryName e) n)) es.

(** What the volume takes for [public] at the root of the tree is
    spelled [public], and in the directory [public] what it takes for
    [project-context.json] is spelled so. *)
Definition outputSpelledExactly (v : volume) (root : list entry) : bool :=
  spelledExactly v (lit "public") root
  && forallb (fun e => match e with
                       | Dir d sub =>
                           implb (streq d (lit "public"))
                                 (spelledExactly v (lit "project-context.json") sub)
                       | File _ _ => true
                       end) root.




(* ================================================================== *)
(** * Vocabulary of the further properties *)
(* ================================================================== *)

(** The text stored for a file read as [raw] when [cap] code units may
    be retained. *)
Definition storedText (raw : jsstring) (cap : Z) : jsstring :=
  if (cap <? len raw)%Z then slice0 raw cap ++ truncationMarker else raw.

(** The request for the artifact fails: [fetch] rejects, the response is
    not [ok], or its body does not parse. *)
Definition requestFails (fetched : settled response) : Prop :=
  match fetched with
  | Rejected _ => True
  | Fulfilled r => ok r = false \/ exists e, json r = Rejected e
  end.

(** A part that [getMessageText] takes text from: an object whose [type]
    is ["text"] and whose [text] is the string [t]. *)
Definition textPart (part : jsvalue) (t : jsstring) : Prop :=
  exists fields,
    part = VObject fields
    /\ getField fields (lit "type") = VString (lit "text")
    /\ getField fields (lit "text") = VString t.

(** The number of squares of a board that hold the mark of a player. *)
Definition marks (p : player) (squares : board) : nat :=
  List.length
    (filter (fun c => match c, p with
                      | Some X, X | Some O, O => true
                      | _, _ => false
                      end) squares).

Section GameVocabulary.

Variable calculateWinner : board -> option player.

(** The history is the record of a game: it starts with nine empty
    squares, and each board comes from the one before it by one mark on
    an empty square of a board without winner, the marks being X and O
    in turn, starting with X. *)
Definition gameRecord (boards : list board) : Prop :=
  nth_error boards 0 = Some (repeat None 9)
  /\ forall k b b',
       nth_error boards k = Some b ->
       nth_error boards (S k) = Some b' ->
       calculateWinner b = None
       /\ exists i, square b i = None
                    /\ b' = setSquare b i (if Nat.even k then X else O).

(** What holds of every reachable state. *)
Definition gameInv (st : gameState) : Prop :=
  gameRecord (history st)
  /\ stepNumber st < List.length (history st)
  /\ xIsNext st = Nat.even (stepNumber st).

(** The states the page can get into: by clicks on squares, and by
    jumps to steps of the history. *)
Inductive reachable : gameState -> Prop :=
| reachInitial : reachable initialGame
| reachClick st i st' :
    reachable st -> handleClick calculateWinner st i = Some st' -> reachable st'
| reachJump st step :
    reachable st -> step < List.length (history st) -> reachable (jumpTo st step).

End GameVocabulary.

Section FurtherVocabulary.

Context `{Host}.

(** The resource was made from a file of the list, read without a NUL,
    with some cap between one and [MAX_CHARS_PER_FILE]. *)
Definition madeFrom (read : list jsstring -> option jsstring)
           (files : list fileRef) (r : resource) : Prop :=
  exists file raw cap,
    In file files
    /\ read (fullPath file) = Some raw
    /\ isBinaryLike raw = false
    /\ (0 < cap <= MAX_CHARS_PER_FILE)%Z
    /\ r = makeResource file (storedText raw cap) (cap <? len raw)%Z.

(** The paths of the files of the tree that the walk gathers and that
    read without a NUL, in the order of the sort. *)
Definition candidatePaths (root : list entry) : list jsstring :=
  map relativePath
      (filter (keeps (readFileSync root))
              (sortFiles (collectFiles [] root []))).

(** The five values of [getMimeType]. *)
Definition mimeTypes : list jsstring :=
  map lit ["application/json"; "text/markdown"; "text/css"; "text/html";
           "text/plain"]%string.

End FurtherVocabulary.

(* ================================================================== *)
(** * Properties of strings *)
(* ================================================================== *)

Unset Implicit Arguments.

Lemma streq_spec (a b : jsstring) : streq a b = true <-> a = b.
Proof.
  revert b; induction a as [|x a IH]; intros [|y b]; simpl; split;
    try congruence; try reflexivity.
  - rewrite andb_true_iff, N.eqb_eq, IH. intros [-> ->]. reflexivity.
  - intros E. injection E as -> ->. rewrite N.eqb_refl. apply IH. reflexivity.
Qed.

Lemma streq_refl (a : jsstring) : streq a a = true.
Proof. apply streq_spec. reflexivity. Qed.

Lemma streq_false (a b : jsstring) : streq a b = false <-> a <> b.
Proof.
  rewrite <- streq_spec. destruct (streq a b); split; congruence.
Qed.

Lemma startsWith_spec (s p : jsstring) :
  startsWith s p = true <-> exists rest, s = p ++ rest.
Proof.
  revert s; induction p as [|y p IH]; intros s; simpl.
  - split; [eauto | reflexivity].
  - destruct s as [|x s].
    + split; [discriminate | intros [rest E]; discriminate].
    + rewrite andb_true_iff, N.eqb_eq, IH. split.
      * intros [-> [rest ->]]. eauto.
      * intros [rest E]. injection E as -> ->. eauto.
Qed.

Lemma startsWith_app (p rest : jsstring) : startsWith (p ++ rest) p = true.
Proof. apply startsWith_spec. eauto. Qed.

Lemma includes_spec (s t : jsstring) :
  includes s t = true <-> exists before after, s = before ++ t ++ after.
Proof.
  induction s as [|x s IH]; simpl.
  - rewrite orb_false_r, startsWith_spec. split.
    + intros [rest E]. exists [], rest. exact E.
    + intros [[|b before] [after E]]; [eauto | discriminate].
  - rewrite orb_true_iff, startsWith_spec, IH. split.
    + intros [[rest E] | [before [after E]]].
      * exists [], rest. exact E.
      * exists (x :: before), after. simpl. congruence.
    + intros [[|b before] [after E]].
      * left. eauto.
      * right. injection E as -> ->. eauto.
Qed.

Lemma includes_app (before t after : jsstring) :
  includes (before ++ t ++ after) t = true.
Proof. apply includes_spec. eauto. Qed.

Lemma includes_unit (s : jsstring) (c : N) : includes s [c] = true <-> In c s.
Proof.
  rewrite includes_spec. split.
  - intros [before [after ->]]. apply in_or_app. right. left. reflexivity.
  - intros I. destruct (in_split _ _ I) as [before [after ->]].
    exists before, after. reflexivity.
Qed.

Lemma trimStart_whitespace (s : jsstring) : blank s -> trimStart s = [].
Proof.
  induction 1 as [|c s Hc _ IH]; simpl; [reflexivity|].
  rewrite Hc. exact IH.
Qed.

Lemma trim_whitespace (s : jsstring) : blank s -> trim s = [].
Proof.
  intros W. unfold trim, trimEnd. rewrite (trimStart_whitespace _ W). reflexivity.
Qed.

Lemma len_app (a b : jsstring) : len (a ++ b) = (len a + len b)%Z.
Proof. unfold len. rewrite length_app. lia. Qed.

Lemma len_nonneg (a : jsstring) : (0 <= len a)%Z.
Proof. unfold len. lia. Qed.

Lemma len_slice0 (s : jsstring) (n : Z) :
  (0 <= n <= len s)%Z -> len (slice0 s n) = n.
Proof.
  unfold len, slice0. intros R. rewrite length_firstn. lia.
Qed.

Lemma len_truncationMarker : len truncationMarker = 25%Z.
Proof. reflexivity. Qed.

(* ================================================================== *)
(** * Properties of the resource shim *)
(* ================================================================== *)

Section ShimProperties.

Context `{Host}.

Lemma loadProjectContext_inv network st :
  sessionInv st ->
  let '(p, st') := loadProjectContext network st in
  sessionInv st' /\ projectContextPromise st' = Some p
  /\ (forall q, projectContextPromise st = Some q -> q = p /\ st' = st).
Proof.
  unfold sessionInv, loadProjectContext.
  destruct (projectContextPromise st) as [q|] eqn:E; simpl.
  - intros I. rewrite E. repeat split; try tauto; congruence.
  - intros [-> ->]. repeat split; discriminate.
Qed.

Lemma performAll_inv network cs : forall st,
  sessionInv st ->
  let '(log, st') := performAll network st cs in
  sessionInv st'
  /\ (cs <> [] -> exists p, projectContextPromise st' = Some p)
  /\ (forall p, In p (map fst log) -> projectContextPromise st' = Some p)
  /\ (forall q, projectContextPromise st = Some q -> st' = st).
Proof.
  induction cs as [|c cs IH]; intros st I; simpl.
  - repeat split; [exact I | congruence | contradiction].
  - unfold perform.
    pose proof (loadProjectContext_inv network st I) as L.
    destruct (loadProjectContext network st) as [p st1].
    destruct L as [I1 [M1 K1]].
    specialize (IH st1 I1).
    destruct (performAll network st1 cs) as [rest st2].
    destruct IH as [I2 [_ [A2 K2]]].
    pose proof (K2 p M1) as ->.
    repeat split.
    + exact I1.
    + intros _. eauto.
    + simpl. intros q [<- | Q]; [exact M1 | exact (A2 q Q)].
    + intros q Q. apply (K1 q Q).
Qed.

End ShimProperties.

Lemma asciiLower_blank (s : jsstring) : blank s -> blank (asciiLower s).
Proof.
  induction 1 as [|c s Hc _ IH]; simpl; constructor; [|exact IH].
  destruct ((65 <=? c) && (c <=? 90))%N eqn:E; [|exact Hc].
  exfalso. unfold isWhiteSpace in Hc.
  apply andb_true_iff in E. destruct E as [E1 E2].
  apply N.leb_le in E1, E2.
  repeat (apply orb_true_iff in Hc; destruct Hc as [Hc|Hc]);
    repeat match goal with
           | K : (_ && _)%bool = true |- _ => apply andb_true_iff in K; destruct K
           | K : (_ <=? _)%N = true |- _ => apply N.leb_le in K
           | K : (_ =? _)%N = true |- _ => apply N.eqb_eq in K
           end; lia.
Qed.

Lemma basicHost_lowerKeepsWhiteSpace (p : os) :
  lowerKeepsWhiteSpace (H := basicHost p).
Proof. intros s. apply asciiLower_blank. Qed.

(** C7, the claim as stated, fails: the search text ["app "], with a
    blank after it, is contained in no uri, path or name of the sample
    context, yet [listProjectResources] answers with [src/App.js],
    because it trims the search text before it looks for it. *)
Lemma untrimmed_search_still_matches :
  filter (mentions (H := basicHost Posix) (lit "app ")) (resources sampleContext) = []
  /\ listIn (H := basicHost Posix) sampleContext (Some (lit "app "))
     = [describe appResource]
  /\ listIn (H := basicHost Posix) sampleContext (Some (lit "app "))
     <> map describe
            (filter (mentions (H := basicHost Posix) (lit "app "))
                    (resources sampleContext)).
Proof.
  split; [vm_compute; reflexivity|].
  split; [vm_compute; reflexivity|].
  vm_compute. discriminate.
Qed.

Section ShimClaims.

Context `{Host}.

Lemma listIn_mentionsTrimmed (ctx : context) (s : jsstring) :
  listIn ctx (Some s)
  = map describe (filter (mentionsTrimmed s) (resources ctx)).
Proof.
  unfold listIn. f_equal. apply filter_ext. intros r.
  unfold matchesQuery, mentionsTrimmed, queryOf, or_else.
  destruct s as [|c s]; simpl truthy; cbv iota.
  - destruct (trim (toLowerCase [])) as [|d q] eqn:Q; simpl; [|reflexivity].
    destruct (toLowerCase (uri r)); reflexivity.
  - destruct (trim (toLowerCase (c :: s))) as [|d q] eqn:Q; simpl; [|reflexivity].
    destruct (toLowerCase (uri r)); reflexivity.
Qed.

Lemma queryOf_blank (search : option jsstring) :
  lowerKeepsWhiteSpace ->
  match search with None => True | Some s => blank s end ->
  queryOf search = [].
Proof.
  intros L B. unfold queryOf. apply trim_whitespace, L.
  destruct search as [s|]; [|constructor].
  unfold or_else. destruct (truthy s); [exact B | constructor].
Qed.

Lemma listIn_blank (ctx : context) (search : option jsstring) :
  queryOf search = [] ->
  listIn ctx search = map describe (resources ctx).
Proof.
  intros Q. unfold listIn. rewrite Q. f_equal.
  induction (resources ctx) as [|r rs IH]; simpl; congruence.
Qed.

(** C5.  Whatever happens to the request, the promise of
    [loadProjectContext] is fulfilled, never rejected: with the
    fallback context when [fetch] rejects, when the response is not
    [ok] or when its body does not parse, and with the parsed artifact
    otherwise.  The fallback context has a null timestamp, no
    resources and the placeholder summary. *)
Theorem loadContext_never_rejects (network : nat -> settled response) :
  let p := fst (loadProjectContext network freshSession) in
  (exists c, outcome p = Fulfilled c)
  /\ (forall e, network 0 = Rejected e ->
                outcome p = Fulfilled getFallbackProjectContext)
  /\ (forall r, network 0 = Fulfilled r -> ok r = false ->
                outcome p = Fulfilled getFallbackProjectContext)
  /\ (forall r e, network 0 = Fulfilled r -> ok r = true ->
                  json r = Rejected e ->
                  outcome p = Fulfilled getFallbackProjectContext)
  /\ (forall r c, network 0 = Fulfilled r -> ok r = true ->
                  json r = Fulfilled c ->
                  outcome p = Fulfilled c)
  /\ getFallbackProjectContext
     = {| generatedAt := None;
          resources := [];
          summary := lit "No local project context is available." |}.
Proof.
  simpl. unfold contextChain.
  repeat split.
  - destruct (network 0) as [r|e]; simpl; [|eauto].
    destruct (ok r); simpl; [|eauto].
    destruct (json r); simpl; eauto.
  - intros e ->. reflexivity.
  - intros r -> O. simpl. rewrite O. reflexivity.
  - intros r e -> O J. simpl. rewrite O, J. reflexivity.
  - intros r c -> O J. simpl. rewrite O, J. reflexivity.
Qed.

(** C6.  [getProjectResource] always returns an envelope with exactly
    one content item.  When some resource has the requested uri, the
    item carries the uri, the text and the mime type (or "text/plain"
    when that is empty) of the first such resource, which is the only
    one when uris are unique.  When none has it, the item is the
    not-found payload, whose text contains the requested uri. *)
Theorem getResource_total (ctx : context) (u : jsstring) :
  (exists item, contents (getIn ctx u) = [item])
  /\ ((exists r, In r (resources ctx) /\ uri r = u) ->
      exists r, In r (resources ctx) /\ uri r = u
                /\ contents (getIn ctx u)
                   = [ {| content_uri := u;
                          content_mimeType :=
                            or_else (mimeType r) (lit "text/plain");
                          content_text := text r |} ])
  /\ (forall r, In r (resources ctx) -> uri r = u ->
                (forall r', In r' (resources ctx) -> uri r' = u -> r' = r) ->
                exists item, contents (getIn ctx u) = [item]
                             /\ content_text item = text r)
  /\ ((forall r, In r (resources ctx) -> uri r <> u) ->
      contents (getIn ctx u)
      = [ {| content_uri := u;
             content_mimeType := lit "text/plain";
             content_text := lit "Resource not found for uri: " ++ u |} ]
      /\ includes (lit "Resource not found for uri: " ++ u) u = true).
Proof.
  unfold getIn.
  destruct (find (fun item => streq (uri item) u) (resources ctx)) as [r|] eqn:F.
  - destruct (find_some _ _ F) as [I E]. apply streq_spec in E.
    split; [|split; [|split]].
    + eexists. reflexivity.
    + intros _. exists r. rewrite <- E. auto.
    + intros r0 I0 E0 U. rewrite (U r I E). eexists. split; reflexivity.
    + intros N. destruct (N r I E).
  - pose proof (find_none _ _ F) as N.
    split; [|split; [|split]].
    + eexists. reflexivity.
    + intros [r [I E]]. specialize (N r I). simpl in N.
      rewrite E, streq_refl in N. discriminate.
    + intros r I E. specialize (N r I). simpl in N.
      rewrite E, streq_refl in N. discriminate.
    + intros _. split; [reflexivity|].
      apply includes_spec.
      exists (lit "Resource not found for uri: "), [].
      rewrite app_nil_r. reflexivity.
Qed.

(** C7, as amended.  [listProjectResources] returns, in snapshot order
    and projected to uri, name, description and mime type, the
    resources whose lower-cased uri, path or name contains the search
    text after it is lower-cased and trimmed; none when no resource
    does; and every resource when the search text is absent, empty or
    blank. *)
Theorem listResources_trimmed_search (ctx : context) :
  lowerKeepsWhiteSpace ->
  listIn ctx None = map describe (resources ctx)
  /\ listIn ctx (Some []) = map describe (resources ctx)
  /\ (forall s, listIn ctx (Some s)
                = map describe (filter (mentionsTrimmed s) (resources ctx)))
  /\ (forall s, (forall r, In r (resources ctx) -> mentionsTrimmed s r = false) ->
                listIn ctx (Some s) = [])
  /\ (forall search l, In l (listIn ctx search) ->
        exists r, In r (resources ctx)
                  /\ l = {| listed_uri := uri r;
                            listed_name := name r;
                            listed_description := lit "Project file " ++ path r;
                            listed_mimeType := mimeType r |}).
Proof.
  intros L. repeat split.
  - apply listIn_blank, queryOf_blank; [exact L | exact I].
  - apply listIn_blank, queryOf_blank; [exact L | constructor].
  - apply listIn_mentionsTrimmed.
  - intros s N. rewrite listIn_mentionsTrimmed.
    induction (resources ctx) as [|r rs IH]; [reflexivity|].
    simpl. rewrite (N r (or_introl eq_refl)).
    apply IH. intros r' I'. apply N. right. exact I'.
  - intros search l I. unfold listIn in I.
    apply in_map_iff in I. destruct I as [r [<- I]].
    apply filter_In in I. exists r. split; [tauto | reflexivity].
Qed.

(** C10.  A search string of white space only is answered like the
    empty search string: with every resource, projected, in snapshot
    order. *)
Theorem listResources_blank_search (ctx : context) (s : jsstring) :
  lowerKeepsWhiteSpace ->
  blank s ->
  listIn ctx (Some s) = listIn ctx (Some [])
  /\ listIn ctx (Some s) = map describe (resources ctx).
Proof.
  intros L B.
  assert (A : forall t, blank t -> listIn ctx (Some t) = map describe (resources ctx)).
  { intros t Bt. apply listIn_blank. apply (queryOf_blank (Some t) L Bt). }
  split.
  - rewrite (A s B). symmetry. apply A. constructor.
  - apply A, B.
Qed.

(** C9.  In a session that starts with nothing requested, any sequence
    of calls of the shim's operations issues at most one request and
    writes the memo reference at most once, exactly once as soon as
    there is a call; the first call stores its promise, and every call
    awaits that stored promise. *)
Theorem fetch_at_most_once (network : nat -> settled response) (cs : list call) :
  let log := fst (performAll network freshSession cs) in
  let final := snd (performAll network freshSession cs) in
  requests final <= 1
  /\ assignments final <= 1
  /\ (cs <> [] -> requests final = 1 /\ assignments final = 1)
  /\ (forall c,
        projectContextPromise (snd (perform network freshSession c))
        = Some (fst (fst (perform network freshSession c))))
  /\ (forall p, In p (map fst log) -> projectContextPromise final = Some p)
  /\ (forall p q, In p (map fst log) -> In q (map fst log) -> p = q).
Proof.
  assert (I0 : sessionInv freshSession) by (split; reflexivity).
  pose proof (performAll_inv network cs freshSession I0) as P.
  destruct (performAll network freshSession cs) as [log final]. simpl.
  destruct P as [I [E [A _]]].
  assert (R : requests final <= 1 /\ assignments final <= 1).
  { unfold sessionInv in I. destruct (projectContextPromise final); lia. }
  split; [tauto|]. split; [tauto|]. split; [|split; [|split]].
  - intros N. destruct (E N) as [p M]. unfold sessionInv in I.
    rewrite M in I. tauto.
  - intros c. reflexivity.
  - exact A.
  - intros p q P Q. apply A in P, Q. congruence.
Qed.

End ShimClaims.

(* ================================================================== *)
(** * The loop of loadResources *)
(* ================================================================== *)

Section LoopProperties.

Context `{Host}.

Variable read : list jsstring -> option jsstring.

Lemma totalChars_app (a b : list resource) :
  totalChars (a ++ b) = (totalChars a + totalChars b)%Z.
Proof.
  induction a as [|r a IH]; simpl; [reflexivity|]. rewrite IH. lia.
Qed.

Lemma totalChars_snoc (a : list resource) (r : resource) :
  totalChars (a ++ [r]) = (totalChars a + len (text r))%Z.
Proof. rewrite totalChars_app. unfold totalChars at 2. simpl. lia. Qed.

Lemma totalChars_nonneg (a : list resource) : (0 <= totalChars a)%Z.
Proof.
  induction a as [|r a IH]; simpl; [lia|].
  pose proof (len_nonneg (text r)). lia.
Qed.

(** One iteration, read backwards from a run that returned: the loop
    left at one of its first two [break]s, or skipped a file with a NUL,
    or pushed a resource and went on. *)
Lemma loadLoop_cons file rest rs total out :
  loadLoop read (file :: rest) rs total = Some out ->
  (out = rs /\ (MAX_FILES <= Z.of_nat (List.length rs)
                \/ MAX_TOTAL_CHARS <= total)%Z)
  \/ ((Z.of_nat (List.length rs) < MAX_FILES)%Z
      /\ (total < MAX_TOTAL_CHARS)%Z
      /\ exists raw,
          read (fullPath file) = Some raw
          /\ ((isBinaryLike raw = true
               /\ loadLoop read rest rs total = Some out)
              \/ (isBinaryLike raw = false
                  /\ exists cap,
                      cap = Z.min MAX_CHARS_PER_FILE (MAX_TOTAL_CHARS - total)
                      /\ (0 < cap)%Z
                      /\ exists txt,
                          txt = (if (cap <? len raw)%Z
                                 then slice0 raw cap ++ truncationMarker
                                 else raw)
                          /\ loadLoop read rest
                               (rs ++ [makeResource file txt (cap <? len raw)%Z])
                               (total + len txt) = Some out))).
Proof.
  cbn [loadLoop].
  destruct (MAX_FILES <=? Z.of_nat (List.length rs))%Z eqn:C1.
  { intros E. injection E as <-. left. apply Z.leb_le in C1. auto. }
  destruct (MAX_TOTAL_CHARS <=? total)%Z eqn:C2.
  { intros E. injection E as <-. left. apply Z.leb_le in C2. auto. }
  apply Z.leb_gt in C1, C2.
  destruct (read (fullPath file)) as [raw|]; [|discriminate].
  intros E. right. split; [exact C1|]. split; [exact C2|].
  exists raw. split; [reflexivity|].
  destruct (isBinaryLike raw); [left; auto|].
  right. split; [reflexivity|].
  rewrite Z.max_r in E by lia.
  destruct (Z.min MAX_CHARS_PER_FILE (MAX_TOTAL_CHARS - total) =? 0)%Z eqn:C3.
  { apply Z.eqb_eq in C3. unfold MAX_CHARS_PER_FILE in C3. lia. }
  apply Z.eqb_neq in C3.
  eexists. split; [reflexivity|].
  split; [unfold MAX_CHARS_PER_FILE in *; lia|].
  eexists. split; [reflexivity|]. exact E.
Qed.

(** An invariant of the accumulator that every push keeps holds of the
    returned array. *)
Lemma loadLoop_invariant (Inv : list resource -> Prop) :
  (forall file raw rs cap,
      Inv rs ->
      (Z.of_nat (List.length rs) < MAX_FILES)%Z ->
      (totalChars rs < MAX_TOTAL_CHARS)%Z ->
      read (fullPath file) = Some raw ->
      isBinaryLike raw = false ->
      cap = Z.min MAX_CHARS_PER_FILE (MAX_TOTAL_CHARS - totalChars rs) ->
      Inv (rs ++ [makeResource file
                    (if (cap <? len raw)%Z
                     then slice0 raw cap ++ truncationMarker else raw)
                    (cap <? len raw)%Z])) ->
  forall files rs out,
    Inv rs ->
    loadLoop read files rs (totalChars rs) = Some out ->
    Inv out.
Proof.
  intros Step files.
  induction files as [|file rest IH]; intros rs out I E.
  - cbn [loadLoop] in E. injection E as <-. exact I.
  - apply loadLoop_cons in E.
    destruct E as [[-> _] | [C1 [C2 [raw [R [[B E] | [B [cap [Ec [Pc [txt [Et E]]]]]]]]]]]].
    + exact I.
    + exact (IH rs out I E).
    + subst txt.
      match type of E with
      | loadLoop _ _ ?rs' ?t = _ =>
          replace t with (totalChars rs') in E
      end.
      * refine (IH _ out _ E).
        apply (Step file raw rs cap I C1 C2 R B Ec).
      * rewrite totalChars_snoc. reflexivity.
Qed.

(** The text stored for a file, with the cap in force for it. *)
Lemma pushed_text_bounds raw cap :
  (0 < cap <= MAX_CHARS_PER_FILE)%Z ->
  let txt := if (cap <? len raw)%Z
             then slice0 raw cap ++ truncationMarker else raw in
  (len txt <= cap + (if (cap <? len raw)%Z then len truncationMarker else 0))%Z.
Proof.
  intros R. destruct (cap <? len raw)%Z eqn:T; simpl.
  - apply Z.ltb_lt in T. rewrite len_app, len_slice0 by lia. lia.
  - apply Z.ltb_ge in T. lia.
Qed.

Lemma loadLoop_withinFileCap files out :
  loadLoop read files [] 0 = Some out -> Forall withinFileCap out.
Proof.
  apply (loadLoop_invariant (Forall withinFileCap)); [|constructor].
  intros file raw rs cap I _ C2 _ _ Ec.
  apply Forall_app. split; [exact I|]. constructor; [|constructor].
  unfold withinFileCap. cbn [text truncated makeResource].
  assert (R : (0 < cap <= MAX_CHARS_PER_FILE)%Z)
    by (unfold MAX_CHARS_PER_FILE in *; lia).
  destruct (cap <? len raw)%Z eqn:T.
  - apply Z.ltb_lt in T. eexists. split; [reflexivity|].
    rewrite len_slice0; lia.
  - apply Z.ltb_ge in T. lia.
Qed.

Lemma loadLoop_total files out :
  loadLoop read files [] 0 = Some out ->
  pushedBelowCap out
  /\ (totalChars out <= MAX_TOTAL_CHARS + len truncationMarker)%Z.
Proof.
  apply (loadLoop_invariant
           (fun rs => pushedBelowCap rs
                      /\ (totalChars rs <= MAX_TOTAL_CHARS + len truncationMarker)%Z)).
  - intros file raw rs cap [I T] _ C2 _ _ Ec. split.
    + intros before r after E.
      destruct after as [|a after'] using rev_ind.
      * apply (app_inj_tail rs before) in E. destruct E as [<- _]. exact C2.
      * clear IHafter'. rewrite app_comm_cons, app_assoc in E.
        apply app_inj_tail in E. destruct E as [E _].
        apply (I before r after' E).
    + rewrite totalChars_snoc. cbn [text makeResource].
      assert (R : (0 < cap <= MAX_CHARS_PER_FILE)%Z)
        by (unfold MAX_CHARS_PER_FILE in *; lia).
      pose proof (pushed_text_bounds raw cap R) as P. cbv zeta in P.
      pose proof (len_nonneg truncationMarker).
      destruct (cap <? len raw)%Z; lia.
  - split.
    + intros [|b before] r after E; discriminate.
    + rewrite len_truncationMarker. cbn [totalChars fold_right].
      unfold MAX_TOTAL_CHARS. lia.
Qed.

End LoopProperties.

(* ================================================================== *)
(** * The size budgets *)
(* ================================================================== *)

(** C1, the claim as stated, fails: a file of 12001 code units is cut to
    12000 and the marker of 25 is appended, which gives a [text] of 12025
    code units, above [MAX_CHARS_PER_FILE]. *)
Lemma marker_exceeds_file_cap :
  exists rs,
    loadResources (H := basicHost Posix) longFileTree = Some rs
    /\ map (fun r => (len (text r), truncated r)) rs = [(12025%Z, true)]
    /\ Exists (fun r => (MAX_CHARS_PER_FILE < len (text r))%Z) rs.
Proof.
  assert (E : option_map (map (fun r => (len (text r), truncated r)))
                         (loadResources (H := basicHost Posix) longFileTree)
              = Some [(12025%Z, true)])
    by (vm_compute; reflexivity).
  destruct (loadResources (H := basicHost Posix) longFileTree) as [rs|];
    [|discriminate E].
  exists rs. split; [reflexivity|].
  cbn [option_map] in E. injection E as E. split; [exact E|].
  destruct rs as [|r [|r' rs]]; try discriminate E.
  cbn [map] in E. injection E as E1 E2.
  constructor. rewrite E1. reflexivity.
Qed.

(** C2, the claim as stated, fails: of forty-two files of 12001 code
    units the first forty-one take 12025 each, the last one is cut to the
    6975 that remain and gets the marker too, and the texts add up to
    500025, above [MAX_TOTAL_CHARS]. *)
Lemma marker_exceeds_total_cap :
  exists rs,
    loadResources (H := basicHost Posix) longFilesTree = Some rs
    /\ List.length rs = 42
    /\ totalChars rs = 500025%Z
    /\ (MAX_TOTAL_CHARS < totalChars rs)%Z.
Proof.
  assert (E : option_map (fun rs => (List.length rs, totalChars rs))
                         (loadResources (H := basicHost Posix) longFilesTree)
              = Some (42, 500025%Z))
    by (vm_compute; reflexivity).
  destruct (loadResources (H := basicHost Posix) longFilesTree) as [rs|];
    [|discriminate E].
  exists rs. split; [reflexivity|].
  cbn [option_map] in E. injection E as E1 E2.
  rewrite E1, E2. repeat split.
Qed.

Section BudgetClaims.

Context `{Host}.

(** C1, as amended.  In every snapshot the [text] of a resource that
    was not truncated has at most [MAX_CHARS_PER_FILE] code units, and
    the [text] of a truncated one is a retained part of at most
    [MAX_CHARS_PER_FILE] code units followed by the truncation marker,
    so at most [MAX_CHARS_PER_FILE + 25] code units in all. *)
Theorem text_within_cap_and_marker (root : list entry) (rs : list resource) :
  loadResources root = Some rs ->
  forall r, In r rs ->
    (truncated r = false -> (len (text r) <= MAX_CHARS_PER_FILE)%Z)
    /\ (truncated r = true ->
        (exists kept, text r = kept ++ truncationMarker
                      /\ (len kept <= MAX_CHARS_PER_FILE)%Z)
        /\ (len (text r) <= MAX_CHARS_PER_FILE + 25)%Z).
Proof.
  intros L r I.
  apply loadLoop_withinFileCap in L.
  rewrite Forall_forall in L. specialize (L r I).
  unfold withinFileCap in L.
  destruct (truncated r); split; try discriminate; intros _.
  - split; [exact L|].
    destruct L as [kept [-> K]].
    rewrite len_app, len_truncationMarker. lia.
  - exact L.
Qed.

(** C2, as amended.  In every snapshot each resource was added while
    the sum of the [text] lengths before it was below
    [MAX_TOTAL_CHARS], so nothing is added once the sum has reached the
    cap; the sum itself is at most [MAX_TOTAL_CHARS + 25], the cap and
    one truncation marker. *)
Theorem total_within_cap_and_marker (root : list entry) (rs : list resource) :
  loadResources root = Some rs ->
  (totalChars rs <= MAX_TOTAL_CHARS + 25)%Z
  /\ forall before r after,
       rs = before ++ r :: after ->
       (totalChars before < MAX_TOTAL_CHARS)%Z.
Proof.
  intros L. apply loadLoop_total in L. destruct L as [P T].
  rewrite len_truncationMarker in T. split; [exact T | exact P].
Qed.

End BudgetClaims.

(* ================================================================== *)
(** * Paths: split, join and the separators *)
(* ================================================================== *)

Lemma split_nonempty (c : N) (s : jsstring) : split c s <> [].
Proof.
  destruct s as [|x s]; simpl; [discriminate|].
  destruct (N.eqb x c); [discriminate|].
  destruct (split c s); discriminate.
Qed.

(** Joining the pieces of a split with the separator gives the string
    back. *)
Lemma join_split (c : N) (s : jsstring) : join [c] (split c s) = s.
Proof.
  induction s as [|x s IH]; [reflexivity|].
  simpl split. destruct (N.eqb x c) eqn:E.
  - apply N.eqb_eq in E. subst x.
    pose proof (split_nonempty c s) as NE.
    destruct (split c s) as [|p ps]; [contradiction|].
    change (join [c] ([] :: p :: ps)) with ([] ++ [c] ++ join [c] (p :: ps)).
    rewrite IH. reflexivity.
  - destruct (split c s) as [|p ps] eqn:S.
    + destruct (split_nonempty c s S).
    + destruct ps as [|q ps].
      * simpl in *. congruence.
      * change (join [c] ((x :: p) :: q :: ps))
          with (x :: (p ++ [c] ++ join [c] (q :: ps))).
        change (join [c] (p :: q :: ps))
          with (p ++ [c] ++ join [c] (q :: ps)) in IH.
        congruence.
Qed.

(** Splitting at one code unit and joining with another replaces the
    one by the other. *)
Lemma join_split_replace (c g : N) (s : jsstring) :
  join [g] (split c s) = map (fun x => if N.eqb x c then g else x) s.
Proof.
  induction s as [|x s IH]; [reflexivity|].
  simpl split. simpl map. destruct (N.eqb x c).
  - pose proof (split_nonempty c s) as NE.
    destruct (split c s) as [|p ps]; [contradiction|].
    change (join [g] ([] :: p :: ps)) with (g :: join [g] (p :: ps)).
    rewrite IH. reflexivity.
  - destruct (split c s) as [|p ps] eqn:S.
    + destruct (split_nonempty c s S).
    + destruct ps as [|q ps].
      * simpl in *. congruence.
      * change (join [g] ((x :: p) :: q :: ps))
          with (x :: (p ++ [g] ++ join [g] (q :: ps))).
        change (join [g] (p :: q :: ps))
          with (p ++ [g] ++ join [g] (q :: ps)) in IH.
        congruence.
Qed.

Lemma replace_inv (c g : N) (s : jsstring) :
  forall t,
    map (fun x => if N.eqb x c then g else x) s = t -> ~ In g t -> s = t.
Proof.
  induction s as [|x s IH]; intros [|y t] E NI; try discriminate E; [reflexivity|].
  cbn [map] in E. injection E as E1 E2.
  destruct (N.eqb x c).
  - destruct NI. left. symmetry. exact E1.
  - subst y. f_equal. apply IH; [exact E2|]. intros I. apply NI. right. exact I.
Qed.

Lemma split_free (c : N) (s : jsstring) : ~ In c s -> split c s = [s].
Proof.
  induction s as [|x s IH]; intros F; [reflexivity|].
  simpl. destruct (N.eqb x c) eqn:E.
  - apply N.eqb_eq in E. destruct F. left. exact E.
  - rewrite IH; [reflexivity|]. intros I. apply F. right. exact I.
Qed.

Lemma split_app_sep (c : N) (p rest : jsstring) :
  ~ In c p -> split c (p ++ c :: rest) = p :: split c rest.
Proof.
  induction p as [|x p IH]; intros F; simpl.
  - rewrite N.eqb_refl. reflexivity.
  - destruct (N.eqb x c) eqn:E.
    + apply N.eqb_eq in E. destruct F. left. exact E.
    + rewrite IH; [reflexivity|]. intros I. apply F. right. exact I.
Qed.

(** Splitting a join of separator-free pieces gives the pieces back. *)
Lemma split_join (c : N) (parts : list jsstring) :
  parts <> [] ->
  Forall (fun p => ~ In c p) parts ->
  split c (join [c] parts) = parts.
Proof.
  induction parts as [|p ps IH]; intros NE F; [contradiction|].
  inversion F as [|? ? Fp Fps]; subst.
  destruct ps as [|q ps].
  - simpl. apply split_free, Fp.
  - change (join [c] (p :: q :: ps)) with (p ++ c :: join [c] (q :: ps)).
    rewrite split_app_sep by exact Fp.
    rewrite IH; [reflexivity | discriminate | exact Fps].
Qed.

Lemma join_inj (c : N) (a b : list jsstring) :
  a <> [] -> b <> [] ->
  Forall (fun p => ~ In c p) a -> Forall (fun p => ~ In c p) b ->
  join [c] a = join [c] b -> a = b.
Proof.
  intros Na Nb Fa Fb E.
  rewrite <- (split_join c a Na Fa), <- (split_join c b Nb Fb), E. reflexivity.
Qed.

Lemma join_cons_snoc (c : N) (d : jsstring) (dirs : list jsstring) (n : jsstring) :
  join [c] ((d :: dirs) ++ [n]) = d ++ c :: join [c] (dirs ++ [n]).
Proof.
  simpl. destruct (dirs ++ [n]) as [|x l] eqn:E; [|reflexivity].
  destruct dirs; discriminate.
Qed.

Section PathProperties.

Context `{Host}.

Lemma validName_spec (n : jsstring) :
  validName n = true <-> Forall (fun c => reservedChar c = false) n.
Proof.
  unfold validName. rewrite negb_true_iff.
  induction n as [|c n IH]; simpl.
  - split; [constructor | reflexivity].
  - rewrite orb_false_iff, IH. split.
    + intros [C F]. constructor; assumption.
    + intros F. inversion F; subst. auto.
Qed.

Lemma validName_no_slash (n : jsstring) : validName n = true -> ~ In slash n.
Proof.
  rewrite validName_spec, Forall_forall. intros F I.
  specialize (F _ I). unfold reservedChar in F.
  rewrite N.eqb_refl in F. discriminate.
Qed.

Lemma validName_no_sep (n : jsstring) : validName n = true -> ~ In sep n.
Proof.
  rewrite validName_spec, Forall_forall. intros F I.
  specialize (F _ I). unfold reservedChar, sep, path_sep in *.
  destruct platform; rewrite N.eqb_refl in F; simpl in F;
    rewrite ?orb_true_r in F; discriminate.
Qed.

(** On names the platform allows, the normalized relative path is the
    names joined with ["/"]. *)
Lemma toPosixPath_relative (full : list jsstring) :
  full <> [] ->
  Forall (fun n => validName n = true) full ->
  toPosixPath (relative full) = join [slash] full.
Proof.
  intros NE F. unfold toPosixPath, relative.
  rewrite split_join; [reflexivity | exact NE |].
  eapply Forall_impl; [|exact F]. intros n. apply validName_no_sep.
Qed.

Lemma under_public_path (dirs : list jsstring) (n : jsstring) :
  Forall (fun n => validName n = true) (dirs ++ [n]) ->
  startsWith (join [slash] (dirs ++ [n])) (lit "public/") = true
  <-> underPublic dirs.
Proof.
  intros F. unfold underPublic. split.
  - intros S. apply startsWith_spec in S. destruct S as [rest E].
    destruct dirs as [|d dirs].
    + simpl in E. apply Forall_inv in F.
      apply validName_no_slash in F. destruct F.
      rewrite E. unfold slash. simpl. tauto.
    + exists dirs. f_equal.
      rewrite join_cons_snoc in E.
      apply Forall_inv in F.
      apply validName_no_slash in F.
      assert (S : split slash (d ++ slash :: join [slash] (dirs ++ [n]))
                  = split slash (lit "public" ++ slash :: rest)).
      { rewrite E. reflexivity. }
      rewrite split_app_sep in S by exact F.
      rewrite split_app_sep in S.
      * congruence.
      * unfold slash. simpl. intuition discriminate.
  - intros [rest ->]. rewrite join_cons_snoc. reflexivity.
Qed.

Lemma entry_file_path (dirs : list jsstring) (n : jsstring) :
  Forall (fun n => validName n = true) (dirs ++ [n]) ->
  streq (join [slash] (dirs ++ [n])) (lit "public/index.html") = true
  <-> allowedEntryFile dirs n.
Proof.
  intros F. unfold allowedEntryFile. rewrite streq_spec. split.
  - intros E.
    change (lit "public/index.html")
      with (join [slash] ([lit "public"] ++ [lit "index.html"])) in E.
    apply join_inj in E.
    + apply app_inj_tail in E. exact E.
    + destruct dirs; discriminate.
    + discriminate.
    + eapply Forall_impl; [|exact F]. intros x. apply validName_no_slash.
    + repeat constructor; unfold slash; simpl; intuition discriminate.
  - intros [-> ->]. reflexivity.
Qed.

End PathProperties.

(* ================================================================== *)
(** * The walk over the tree *)
(* ================================================================== *)

Lemma fold_left_push (A B : Type) (f : list B -> A -> list B) (es : list A) :
  Forall (fun e => forall acc, f acc e = acc ++ f [] e) es ->
  forall acc, fold_left f es acc = acc ++ flat_map (f []) es.
Proof.
  induction 1 as [|e es He _ IH]; intros acc; simpl.
  - rewrite app_nil_r. reflexivity.
  - rewrite IH, He, app_assoc. reflexivity.
Qed.

Lemma fileAt_inside (es : list entry) (dirs : list jsstring) (n c : jsstring) :
  fileAt es dirs n c <-> exists e, In e es /\ fileAt [e] dirs n c.
Proof.
  split.
  - intros F. inversion F; subst.
    + exists (File n c). split; [assumption|]. constructor. left. reflexivity.
    + exists (Dir d sub). split; [assumption|].
      econstructor; [left; reflexivity | assumption].
  - intros [e [I F]]. inversion F as [? ? ? J | ? ? ? ? ? ? J K]; subst.
    + destruct J as [-> | []]. constructor. exact I.
    + destruct J as [-> | []]. econstructor; eassumption.
Qed.

Lemma fileAt_file (n0 c0 : jsstring) (dirs : list jsstring) (n c : jsstring) :
  fileAt [File n0 c0] dirs n c <-> dirs = [] /\ n = n0 /\ c = c0.
Proof.
  split.
  - intros F. inversion F as [? ? ? J | ? ? ? ? ? ? J K]; subst.
    + destruct J as [J | []]. injection J as -> ->. auto.
    + destruct J as [J | []]. discriminate J.
  - intros [-> [-> ->]]. constructor. left. reflexivity.
Qed.

Lemma fileAt_dir (d0 : jsstring) (sub : list entry)
      (dirs : list jsstring) (n c : jsstring) :
  fileAt [Dir d0 sub] dirs n c
  <-> exists dirs', dirs = d0 :: dirs' /\ fileAt sub dirs' n c.
Proof.
  split.
  - intros F. inversion F as [? ? ? J | ? ? ? ? ? ? J K]; subst.
    + destruct J as [J | []]. discriminate J.
    + destruct J as [J | []]. injection J as -> ->. eauto.
  - intros [dirs' [-> F]]. econstructor; [left; reflexivity | exact F].
Qed.

Section WalkProperties.

Context `{Host}.

Lemma collectEntry_push (e : entry) :
  forall dirPath acc,
    collectEntry dirPath e acc = acc ++ collectEntry dirPath e [].
Proof.
  induction e as [n c | n sub IH] using entry_induction; intros dirPath acc.
  - cbn [collectEntry]. cbv zeta.
    destruct (skipsFile _ _); [rewrite app_nil_r|]; reflexivity.
  - cbn [collectEntry]. destruct (has IGNORED_DIRS n).
    + rewrite app_nil_r. reflexivity.
    + assert (P : Forall (fun e => forall acc,
                            collectEntry (dirPath ++ [n]) e acc
                            = acc ++ collectEntry (dirPath ++ [n]) e []) sub).
      { eapply Forall_impl; [|exact IH]. intros e He a. apply He. }
      rewrite (fold_left_push _ _ _ _ P acc), (fold_left_push _ _ _ _ P []).
      reflexivity.
Qed.

Lemma collectFiles_flat (dirPath : list jsstring) (es : list entry) :
  collectFiles dirPath es []
  = flat_map (fun e => collectEntry dirPath e []) es.
Proof.
  unfold collectFiles. rewrite fold_left_push; [reflexivity|].
  apply Forall_forall. intros e _ acc. apply collectEntry_push.
Qed.

Lemma collectEntry_dir (dirPath : list jsstring) (n : jsstring) (sub : list entry) :
  collectEntry dirPath (Dir n sub) []
  = if has IGNORED_DIRS n then [] else collectFiles (dirPath ++ [n]) sub [].
Proof. reflexivity. Qed.

Lemma collectEntry_file (dirPath : list jsstring) (n c : jsstring) :
  collectEntry dirPath (File n c) []
  = if skipsFile n (relativePath (refOf dirPath [] n)) then []
    else [refOf dirPath [] n].
Proof. reflexivity. Qed.

(** The files [collectFiles] gathers are the files of the tree outside
    the ignored directories that pass the three tests. *)
Lemma collectEntry_spec (e : entry) :
  forall dirPath f,
    In f (collectEntry dirPath e [])
    <-> exists dirs n c,
          fileAt [e] dirs n c
          /\ outsideIgnored dirs
          /\ skipsFile n (relativePath (refOf dirPath dirs n)) = false
          /\ f = refOf dirPath dirs n.
Proof.
  induction e as [n0 c0 | d0 sub IH] using entry_induction; intros dirPath f.
  - rewrite collectEntry_file. split.
    + destruct (skipsFile n0 _) eqn:S; [intros []|].
      intros [<- | []]. exists [], n0, c0.
      split; [apply fileAt_file; auto|].
      split; [constructor|]. split; [exact S | reflexivity].
    + intros [dirs [n [c [F [_ [S ->]]]]]].
      apply fileAt_file in F. destruct F as [-> [-> ->]].
      rewrite S. left. reflexivity.
  - rewrite collectEntry_dir, collectFiles_flat. split.
    + destruct (has IGNORED_DIRS d0) eqn:G; [intros []|].
      intros I. apply in_flat_map in I. destruct I as [e [Ie If]].
      rewrite Forall_forall in IH. apply (IH e Ie) in If.
      destruct If as [dirs [n [c [F [O [S ->]]]]]].
      exists (d0 :: dirs), n, c.
      split; [apply fileAt_dir; exists dirs; split; [reflexivity|];
              apply fileAt_inside; eauto|].
      split; [constructor; assumption|].
      unfold refOf in *. cbn [relativePath] in *.
      rewrite <- app_assoc in S. simpl in S.
      split; [exact S|]. rewrite <- !app_assoc. reflexivity.
    + intros [dirs [n [c [F [O [S ->]]]]]].
      apply fileAt_dir in F. destruct F as [dirs' [-> F]].
      inversion O as [|? ? G O']; subst. rewrite G.
      apply fileAt_inside in F. destruct F as [e [Ie F]].
      apply in_flat_map. exists e. split; [exact Ie|].
      rewrite Forall_forall in IH. apply (IH e Ie).
      exists dirs', n, c. split; [exact F|]. split; [exact O'|].
      unfold refOf in *. cbn [relativePath] in *.
      rewrite <- !app_assoc. simpl. split; [exact S | reflexivity].
Qed.

Lemma collectFiles_spec (root : list entry) (f : fileRef) :
  In f (collectFiles [] root [])
  <-> exists dirs n c,
        fileAt root dirs n c
        /\ outsideIgnored dirs
        /\ skipsFile n (relativePath (refOf [] dirs n)) = false
        /\ f = refOf [] dirs n.
Proof.
  rewrite collectFiles_flat, in_flat_map. split.
  - intros [e [Ie If]]. apply collectEntry_spec in If.
    destruct If as [dirs [n [c [F R]]]].
    exists dirs, n, c. split; [|exact R]. apply fileAt_inside. eauto.
  - intros [dirs [n [c [F R]]]].
    apply fileAt_inside in F. destruct F as [e [Ie F]].
    exists e. split; [exact Ie|]. apply collectEntry_spec. eauto.
Qed.

End WalkProperties.

(* ================================================================== *)
(** * Reading files *)
(* ================================================================== *)

Lemma readFileSync_cons (e : entry) (es : list entry) (n : jsstring)
      (rest : list jsstring) :
  readFileSync (e :: es) (n :: rest)
  = if streq (entryName e) n then
      match e, rest with
      | File _ c, [] => Some c
      | Dir _ sub, _ :: _ => readFileSync sub rest
      | _, _ => None
      end
    else readFileSync es (n :: rest).
Proof. reflexivity. Qed.



Section ValidTrees.

Context `{Host}.

Lemma has_spec (set : list jsstring) (x : jsstring) :
  has set x = true <-> In x set.
Proof.
  unfold has. rewrite existsb_exists. split.
  - intros [y [I E]]. apply streq_spec in E. subst. exact I.
  - intros I. exists x. split; [exact I | apply streq_refl].
Qed.

Lemma distinct_spec (names : list jsstring) :
  distinct names = true <-> NoDup names.
Proof.
  induction names as [|n names IH]; simpl.
  - split; [constructor | reflexivity].
  - rewrite andb_true_iff, negb_true_iff, IH. split.
    + intros [A B]. constructor; [|exact B].
      intros I. apply has_spec in I. congruence.
    + intros D. inversion D as [|? ? A B]; subst. split; [|exact B].
      destruct (has names n) eqn:G; [|reflexivity].
      apply has_spec in G. contradiction.
Qed.

Lemma validTree_spec (root : list entry) :
  validTree root = true
  <-> NoDup (map entryName root)
      /\ forall e, In e root -> validEntry e = true.
Proof.
  unfold validTree.
  rewrite andb_true_iff, forallb_forall, distinct_spec. tauto.
Qed.

Lemma validEntry_dir (d : jsstring) (sub : list entry) :
  validEntry (Dir d sub) = true
  <-> validName d = true /\ validTree sub = true.
Proof. cbn [validEntry entryName]. unfold validTree. rewrite andb_true_iff. tauto. Qed.

Lemma validEntry_file (n c : jsstring) :
  validEntry (File n c) = true <-> validName n = true.
Proof. cbn [validEntry entryName]. rewrite andb_true_r. tauto. Qed.

Lemma fileAt_validNames (root : list entry) (dirs : list jsstring) (n c : jsstring) :
  fileAt root dirs n c ->
  validTree root = true ->
  Forall (fun n => validName n = true) (dirs ++ [n]).
Proof.
  induction 1 as [es n c I | es d sub dirs n c I F IH]; intros V;
    apply validTree_spec in V; destruct V as [_ V]; specialize (V _ I).
  - apply validEntry_file in V. repeat constructor. exact V.
  - apply validEntry_dir in V. destruct V as [Vd Vs].
    constructor; [exact Vd | exact (IH Vs)].
Qed.

(** In a directory without two entries of the same name, the entry
    found by name is the entry that is there. *)
Lemma readFileSync_here (es : list entry) (n c : jsstring) :
  NoDup (map entryName es) ->
  In (File n c) es ->
  readFileSync es [n] = Some c.
Proof.
  induction es as [|e es IH]; intros D I; [destruct I|].
  rewrite readFileSync_cons.
  inversion D as [|? ? A B]; subst.
  destruct I as [-> | I].
  - simpl. rewrite streq_refl. reflexivity.
  - destruct (streq (entryName e) n) eqn:E.
    + apply streq_spec in E. destruct A. rewrite E.
      apply (in_map entryName) in I. exact I.
    + apply IH; assumption.
Qed.

Lemma readFileSync_below (es : list entry) (d : jsstring) (sub : list entry)
      (x : jsstring) (rest : list jsstring) :
  NoDup (map entryName es) ->
  In (Dir d sub) es ->
  readFileSync es (d :: x :: rest) = readFileSync sub (x :: rest).
Proof.
  induction es as [|e es IH]; intros D I; [destruct I|].
  rewrite readFileSync_cons.
  inversion D as [|? ? A B]; subst.
  destruct I as [-> | I].
  - simpl. rewrite streq_refl. reflexivity.
  - destruct (streq (entryName e) d) eqn:E.
    + apply streq_spec in E. destruct A. rewrite E.
      apply (in_map entryName) in I. exact I.
    + apply IH; assumption.
Qed.

(** In a valid tree every file can be read, and reading gives its
    content. *)
Lemma fileAt_readFileSync (root : list entry) (dirs : list jsstring) (n c : jsstring) :
  fileAt root dirs n c ->
  validTree root = true ->
  readFileSync root (dirs ++ [n]) = Some c.
Proof.
  induction 1 as [es n c I | es d sub dirs n c I F IH]; intros V;
    apply validTree_spec in V; destruct V as [D V].
  - apply readFileSync_here; assumption.
  - specialize (V _ I). apply validEntry_dir in V. destruct V as [_ Vs].
    specialize (IH Vs).
    destruct (dirs ++ [n]) as [|x rest] eqn:P; [destruct dirs; discriminate|].
    change ((d :: dirs) ++ [n]) with (d :: (dirs ++ [n])). rewrite P.
    rewrite (readFileSync_below es d sub x rest D I). exact IH.
Qed.

End ValidTrees.

(* ================================================================== *)
(** * The sort and the shape of the result *)
(* ================================================================== *)

Section SortProperties.

Context `{Host}.

Lemma insertFile_Permutation (f : fileRef) (l : list fileRef) :
  Permutation (insertFile f l) (f :: l).
Proof.
  induction l as [|g l IH]; simpl; [reflexivity|].
  destruct (compareFiles f g <=? 0)%Z; [reflexivity|].
  rewrite IH. apply perm_swap.
Qed.

Lemma sortFiles_Permutation (l : list fileRef) : Permutation (sortFiles l) l.
Proof.
  induction l as [|f l IH]; simpl; [reflexivity|].
  rewrite insertFile_Permutation, IH. reflexivity.
Qed.

Lemma sortFiles_In (l : list fileRef) (f : fileRef) :
  In f (sortFiles l) <-> In f l.
Proof.
  split; apply Permutation_in;
    [|symmetry]; apply sortFiles_Permutation.
Qed.

Lemma insertFile_sorted (f : fileRef) (l : list fileRef) :
  consistentComparator ->
  StronglySorted fileLe l -> StronglySorted fileLe (insertFile f l).
Proof.
  intros [Total Trans] S.
  induction S as [|g l S IH A]; simpl.
  - repeat constructor.
  - destruct (compareFiles f g <=? 0)%Z eqn:C.
    + apply Z.leb_le in C. constructor.
      * constructor; assumption.
      * constructor; [exact C|].
        eapply Forall_impl; [|exact A]. intros x G.
        exact (Trans _ _ _ C G).
    + apply Z.leb_gt in C. constructor; [exact IH|].
      eapply Permutation_Forall.
      * symmetry. apply insertFile_Permutation.
      * constructor; [|exact A]. unfold fileLe, compareFiles in *.
        destruct (Total (relativePath g) (relativePath f)); [assumption | lia].
Qed.

Lemma sortFiles_sorted (l : list fileRef) :
  consistentComparator -> StronglySorted fileLe (sortFiles l).
Proof.
  intros C. induction l as [|f l IH]; simpl; [constructor|].
  apply insertFile_sorted; assumption.
Qed.

Lemma In_firstn (A : Type) (k : nat) (l : list A) (x : A) :
  In x (firstn k l) -> In x l.
Proof.
  revert l. induction k as [|k IH]; intros [|a l]; simpl; try tauto.
  intros [E | I]; [left; exact E | right; exact (IH l I)].
Qed.


Lemma StronglySorted_filter (A : Type) (R : A -> A -> Prop)
      (g : A -> bool) (l : list A) :
  StronglySorted R l -> StronglySorted R (filter g l).
Proof.
  induction 1 as [|a l S IH F]; simpl; [constructor|].
  destruct (g a); [|exact IH]. constructor; [exact IH|].
  rewrite Forall_forall in *. intros x I. apply F.
  apply filter_In in I. tauto.
Qed.

Lemma StronglySorted_paths (l : list fileRef) :
  StronglySorted fileLe l -> ascending (map relativePath l).
Proof.
  induction 1 as [|a l S IH F]; simpl; constructor; [exact IH|].
  apply Forall_map. exact F.
Qed.

End SortProperties.

Section ShapeProperties.

Context `{Host}.

Variable read : list jsstring -> option jsstring.

(** The paths of the result are those of the files kept among the
    first [k] of the list, and [k] falls short of the whole list only
    when a budget is used up. *)
Lemma loadLoop_shape (files : list fileRef) :
  forall rs out,
    loadLoop read files rs (totalChars rs) = Some out ->
    exists k,
      map path out
      = map path rs ++ map relativePath (filter (keeps read) (firstn k files))
      /\ (k = List.length files
          \/ (MAX_FILES <= Z.of_nat (List.length out))%Z
          \/ (MAX_TOTAL_CHARS <= totalChars out)%Z).
Proof.
  induction files as [|file rest IH]; intros rs out E.
  - cbn [loadLoop] in E. injection E as <-. exists 0. simpl.
    rewrite app_nil_r. auto.
  - apply loadLoop_cons in E.
    destruct E as [[-> B] | [C1 [C2 [raw [R [[B E] | [B [cap [Ec [Pc [txt [Et E]]]]]]]]]]]].
    + exists 0. simpl. rewrite app_nil_r. tauto.
    + destruct (IH rs out E) as [k [P K]].
      exists (S k). cbn [firstn filter]. unfold keeps at 1.
      rewrite R, B. cbn [negb]. split; [exact P|].
      simpl. destruct K as [-> | K]; auto.
    + rewrite <- totalChars_snoc with (r := makeResource file txt (cap <? len raw)%Z) in E
        by reflexivity.
      destruct (IH _ out E) as [k [P K]].
      exists (S k). cbn [firstn filter]. unfold keeps at 1.
      rewrite R, B. cbn [negb map]. split.
      * rewrite P, map_app, <- app_assoc. reflexivity.
      * simpl. destruct K as [-> | K]; auto.
Qed.

(** When every file of the list can be read, the loop returns. *)
Lemma loadLoop_returns (files : list fileRef) :
  (forall f, In f files -> read (fullPath f) <> None) ->
  forall rs total, exists out, loadLoop read files rs total = Some out.
Proof.
  induction files as [|file rest IH]; intros R rs total.
  - eexists. reflexivity.
  - cbn [loadLoop].
    destruct (MAX_FILES <=? Z.of_nat (List.length rs))%Z; [eauto|].
    destruct (MAX_TOTAL_CHARS <=? total)%Z; [eauto|].
    destruct (read (fullPath file)) as [raw|] eqn:E.
    + assert (R' : forall f, In f rest -> read (fullPath f) <> None)
        by (intros f I; apply R; right; exact I).
      destruct (isBinaryLike raw); [apply IH, R'|].
      destruct (_ =? 0)%Z; [eauto|]. apply IH, R'.
    + destruct (R file (or_introl eq_refl) E).
Qed.

End ShapeProperties.

(* ================================================================== *)
(** * Which files a snapshot holds *)
(* ================================================================== *)

Section SelectionProperties.

Context `{Host}.

(** On valid names the three tests of [collectFiles] are the selection
    rules. *)
Lemma skipsFile_selected (dirs : list jsstring) (n : jsstring) :
  Forall (fun n => validName n = true) (dirs ++ [n]) ->
  skipsFile n (join [slash] (dirs ++ [n])) = false
  <-> extensionAllowed n
      /\ ~ nameDenied n
      /\ (underPublic dirs -> allowedEntryFile dirs n).
Proof.
  intros V. unfold skipsFile, extensionAllowed, nameDenied.
  rewrite !orb_false_iff, negb_false_iff, andb_false_iff, negb_false_iff.
  rewrite <- (under_public_path dirs n V), <- (entry_file_path dirs n V).
  rewrite not_true_iff_false.
  destruct (startsWith (join [slash] (dirs ++ [n])) (lit "public/"));
    intuition congruence.
Qed.

Lemma refOf_root_path (dirs : list jsstring) (n : jsstring) :
  Forall (fun n => validName n = true) (dirs ++ [n]) ->
  relativePath (refOf [] dirs n) = join [slash] (dirs ++ [n]).
Proof.
  intros V. unfold refOf. cbn [relativePath app].
  apply toPosixPath_relative; [destruct dirs; discriminate | exact V].
Qed.

(** The files gathered from a valid tree are the selected ones, and
    each can be read. *)
Lemma collectFiles_selected (root : list entry) (f : fileRef) :
  validTree root = true ->
  In f (collectFiles [] root [])
  <-> exists dirs n c,
        fileAt root dirs n c
        /\ selected dirs n
        /\ readFileSync root (fullPath f) = Some c
        /\ fullPath f = dirs ++ [n]
        /\ relativePath f = join [slash] (dirs ++ [n]).
Proof.
  intros V. rewrite collectFiles_spec. split.
  - intros [dirs [n [c [F [O [S ->]]]]]].
    pose proof (fileAt_validNames _ _ _ _ F V) as VN.
    rewrite (refOf_root_path _ _ VN) in *.
    apply (skipsFile_selected _ _ VN) in S.
    exists dirs, n, c. split; [exact F|].
    split; [split; [exact O | exact S]|].
    cbn [fullPath refOf app].
    split; [apply (fileAt_readFileSync _ _ _ _ F V)|]. split; reflexivity.
  - intros [dirs [n [c [F [[O S] [_ [P R]]]]]]].
    pose proof (fileAt_validNames _ _ _ _ F V) as VN.
    exists dirs, n, c. split; [exact F|]. split; [exact O|].
    rewrite (refOf_root_path _ _ VN).
    split; [apply (skipsFile_selected _ _ VN); exact S|].
    destruct f as [full rel]. cbn [fullPath relativePath] in *. subst.
    unfold refOf. cbn [app]. f_equal. symmetry.
    apply toPosixPath_relative; [destruct dirs; discriminate | exact VN].
Qed.

Lemma isBinaryLike_spec (c : jsstring) :
  isBinaryLike c = false <-> ~ In 0%N c.
Proof.
  unfold isBinaryLike. rewrite <- includes_unit.
  destruct (includes c [0%N]); split; congruence.
Qed.

Lemma loadResources_returns (root : list entry) :
  validTree root = true -> exists rs, loadResources root = Some rs.
Proof.
  intros V. apply loadLoop_returns. intros f I.
  apply (proj1 (sortFiles_In _ _)) in I.
  apply (proj1 (collectFiles_selected _ _ V)) in I.
  destruct I as [dirs [n [c [_ [_ [R _]]]]]]. congruence.
Qed.

Lemma loadResources_shape (root : list entry) (rs : list resource) :
  loadResources root = Some rs ->
  exists k,
    map path rs
    = map relativePath
          (filter (keeps (readFileSync root))
                  (firstn k (sortFiles (collectFiles [] root []))))
    /\ (k = List.length (sortFiles (collectFiles [] root []))
        \/ (MAX_FILES <= Z.of_nat (List.length rs))%Z
        \/ (MAX_TOTAL_CHARS <= totalChars rs)%Z).
Proof.
  intros L. apply (loadLoop_shape (readFileSync root) _ []) in L. exact L.
Qed.

End SelectionProperties.

(** C3, the claim as stated, fails: of 121 small files that meet every
    rule only the first 120 in sorted order are in the snapshot; the
    loop stops at [MAX_FILES]. *)
Lemma file_budget_drops_a_selected_file :
  exists rs,
    loadResources (H := basicHost Posix) crowdedTree = Some rs
    /\ List.length rs = 120
    /\ eligiblePath (H := basicHost Posix) crowdedTree (lit "f220.js")
    /\ ~ In (lit "f220.js") (map path rs).
Proof.
  assert (E : option_map (fun rs => (List.length rs,
                                     has (map path rs) (lit "f220.js")))
                         (loadResources (H := basicHost Posix) crowdedTree)
              = Some (120, false))
    by (vm_compute; reflexivity).
  destruct (loadResources (H := basicHost Posix) crowdedTree) as [rs|];
    [|discriminate E].
  cbn [option_map] in E. injection E as E1 E2.
  exists rs. split; [reflexivity|]. split; [exact E1|]. split.
  - exists [], (lit "f220.js"), (lit "x").
    split; [|split; [|split]].
    + constructor. unfold crowdedTree, manyFiles.
      apply (in_map (fun i => File (lit "f" ++ numberToString (100 + i) ++ lit ".js")
                                   (lit "x")) (seq 0 121) 120).
      apply in_seq. lia.
    + split; [constructor|]. split; [vm_compute; reflexivity|].
      split; [vm_compute; discriminate|].
      intros [rest R]. discriminate R.
    + vm_compute. intuition discriminate.
    + reflexivity.
  - intros I. apply (proj2 (has_spec _ _)) in I. congruence.
Qed.

Section SelectionClaims.

Context `{Host}.

(** C3, as amended.  On a tree as a file system holds it the generator
    returns a snapshot; every [path] in it is the path of a file
    outside the ignored directories with an allowed extension, a name
    that is not denied, not under [public] unless it is
    [public/index.html], and with no NUL in its content; and the paths
    are exactly those of all such files provided the snapshot has
    reached neither [MAX_FILES] resources nor [MAX_TOTAL_CHARS] code
    units. *)
Theorem snapshot_paths_within_budgets (root : list entry) :
  validTree root = true ->
  exists rs,
    loadResources root = Some rs
    /\ (forall p, In p (map path rs) -> eligiblePath root p)
    /\ ((Z.of_nat (List.length rs) < MAX_FILES)%Z ->
        (totalChars rs < MAX_TOTAL_CHARS)%Z ->
        forall p, In p (map path rs) <-> eligiblePath root p).
Proof.
  intros V.
  destruct (loadResources_returns root V) as [rs L].
  exists rs. split; [exact L|].
  destruct (loadResources_shape root rs L) as [k [P K]].
  assert (Sound : forall p, In p (map path rs) -> eligiblePath root p).
  { intros p I. rewrite P in I.
    apply in_map_iff in I. destruct I as [f [<- I]].
    apply filter_In in I. destruct I as [I Kf].
    apply In_firstn, (proj1 (sortFiles_In _ _)) in I.
    apply (proj1 (collectFiles_selected _ _ V)) in I.
    destruct I as [dirs [n [c [F [S [R [_ Rel]]]]]]].
    unfold keeps in Kf. rewrite R in Kf.
    apply negb_true_iff, isBinaryLike_spec in Kf.
    exists dirs, n, c. auto. }
  split; [exact Sound|].
  intros B1 B2 p. split; [apply Sound|].
  intros [dirs [n [c [F [S [Z ->]]]]]].
  destruct K as [-> | [K | K]]; [|lia|lia].
  rewrite firstn_all in P. rewrite P.
  pose (f := {| fullPath := dirs ++ [n];
                relativePath := join [slash] (dirs ++ [n]) |}).
  apply in_map_iff. exists f. split; [reflexivity|].
  apply filter_In. split.
  - apply sortFiles_In. apply (collectFiles_selected _ _ V).
    exists dirs, n, c. split; [exact F|]. split; [exact S|].
    cbn [fullPath relativePath f].
    split; [apply (fileAt_readFileSync _ _ _ _ F V)|]. split; reflexivity.
  - unfold keeps. cbn [fullPath f].
    rewrite (fileAt_readFileSync _ _ _ _ F V).
    apply negb_true_iff, isBinaryLike_spec. exact Z.
Qed.

End SelectionClaims.

(* ================================================================== *)
(** * Writing the artifact *)
(* ================================================================== *)


















Lemma spelledExactly_caseSensitive (n : jsstring) (es : list entry) :
  spelledExactly CaseSensitive n es = true.
Proof.
  unfold spelledExactly. apply forallb_forall. intros e _. cbn [sameName].
  destruct (streq (entryName e) n); reflexivity.
Qed.

(** On a case-sensitive volume every name is found by its spelling. *)
Lemma outputSpelledExactly_caseSensitive (root : list entry) :
  outputSpelledExactly CaseSensitive root = true.
Proof.
  unfold outputSpelledExactly. apply andb_true_iff. split.
  - apply spelledExactly_caseSensitive.
  - apply forallb_forall. intros [n c | d sub] _; [reflexivity|].
    rewrite spelledExactly_caseSensitive. destruct (streq d _); reflexivity.
Qed.

Section RerunProperties.

Context `{Host}.

Lemma collectFiles_cons (d : list jsstring) (e : entry) (es : list entry) :
  collectFiles d (e :: es) [] = collectEntry d e [] ++ collectFiles d es [].
Proof. rewrite !collectFiles_flat. reflexivity. Qed.



(** The walk skips every file of [public] other than [index.html]. *)
Lemma public_skipped (f : jsstring) :
  f <> lit "index.html" ->
  skipsFile (last [lit "public"; f] [])
            (toPosixPath (relative ([] ++ [lit "public"; f]))) = true.
Proof.
  intros N. unfold skipsFile. apply orb_true_iff. right.
  unfold toPosixPath, relative. rewrite join_split_replace.
  cbn [app join]. rewrite map_app. cbn [map]. rewrite N.eqb_refl.
  assert (P : map (fun x => if N.eqb x sep then slash else x) (lit "public")
              = lit "public")
    by (unfold sep; destruct platform; reflexivity).
  rewrite P.
  change (lit "public" ++ slash :: ?x) with (lit "public/" ++ x).
  rewrite startsWith_app. cbn [andb].
  apply negb_true_iff, streq_false. intros E.
  change (lit "public/index.html") with (lit "public/" ++ lit "index.html") in E.
  apply app_inv_head in E. apply replace_inv in E; [exact (N E)|].
  intros I. cbv in I. repeat (destruct I as [I | I]; [discriminate I|]). exact I.
Qed.

(** The walk skips the artifact: it lies under [public] and is not
    [public/index.html]. *)
Lemma output_skipped :
  skipsFile (last OUTPUT_FILE []) (toPosixPath (relative ([] ++ OUTPUT_FILE)))
  = true.
Proof. apply public_skipped. discriminate. Qed.







End RerunProperties.

(* ================================================================== *)
(** * Across platforms *)
(* ================================================================== *)









Lemma Forall_join (P : N -> Prop) (c : N) (parts : list jsstring) :
  P c -> Forall (Forall P) parts -> Forall P (join [c] parts).
Proof.
  intros Pc. induction 1 as [|p ps Pp Pps IH]; [constructor|].
  destruct ps as [|q ps]; [exact Pp|].
  change (join [c] (p :: q :: ps)) with (p ++ c :: join [c] (q :: ps)).
  apply Forall_app. split; [exact Pp|]. constructor; [exact Pc | exact IH].
Qed.


Section PlatformProperties.

Context `{Host}.












End PlatformProperties.

(* ================================================================== *)
(** * Across orders of enumeration *)
(* ================================================================== *)



Section OrderProperties.

Context `{Host}.






(** On a valid tree a file is known by its path. *)
Lemma collected_by_path (root : list entry) (a b : fileRef) :
  validTree root = true ->
  In a (collectFiles [] root []) ->
  In b (collectFiles [] root []) ->
  relativePath a = relativePath b ->
  a = b.
Proof.
  intros V Ia Ib E.
  apply (proj1 (collectFiles_selected _ _ V)) in Ia, Ib.
  destruct Ia as [dirs [n [c [F [_ [_ [Pa Ra]]]]]]].
  destruct Ib as [dirs' [n' [c' [F' [_ [_ [Pb Rb]]]]]]].
  pose proof (fileAt_validNames _ _ _ _ F V) as VN.
  pose proof (fileAt_validNames _ _ _ _ F' V) as VN'.
  rewrite Ra, Rb in E. apply join_inj in E.
  - destruct a, b. cbn [fullPath relativePath] in *. congruence.
  - destruct dirs; discriminate.
  - destruct dirs'; discriminate.
  - eapply Forall_impl; [|exact VN]. intros x. apply validName_no_slash.
  - eapply Forall_impl; [|exact VN']. intros x. apply validName_no_slash.
Qed.


End OrderProperties.

(* ================================================================== *)
(** * The same engine on another platform *)
(* ================================================================== *)

Section SameEngine.

Context `{Host}.


End SameEngine.

(* ================================================================== *)
(** * The host used for the examples *)
(* ================================================================== *)

Lemma codeUnitCompare_cases (a : jsstring) :
  forall b,
    (codeUnitCompare a b = -1 \/ codeUnitCompare a b = 0 \/ codeUnitCompare a b = 1)%Z.
Proof.
  induction a as [|x a IH]; intros [|y b]; simpl; auto.
  destruct (N.compare x y); auto.
Qed.

Lemma codeUnitCompare_flip (a : jsstring) :
  forall b, codeUnitCompare b a = (- codeUnitCompare a b)%Z.
Proof.
  induction a as [|x a IH]; intros [|y b]; simpl; try reflexivity.
  rewrite (N.compare_antisym x y).
  destruct (N.compare x y); simpl; [apply IH | reflexivity | reflexivity].
Qed.

Lemma codeUnitCompare_eq (a : jsstring) :
  forall b, codeUnitCompare a b = 0%Z -> a = b.
Proof.
  induction a as [|x a IH]; intros [|y b]; simpl; try discriminate; [reflexivity|].
  destruct (N.compare x y) eqn:E; try discriminate.
  apply N.compare_eq in E. intros Z. f_equal; [exact E | exact (IH b Z)].
Qed.

Lemma codeUnitCompare_trans (a : jsstring) :
  forall b c,
    (codeUnitCompare a b <= 0)%Z -> (codeUnitCompare b c <= 0)%Z ->
    (codeUnitCompare a c <= 0)%Z.
Proof.
  induction a as [|x a IH]; intros [|y b] [|z c]; simpl; try lia.
  destruct (N.compare x y) eqn:E1; try lia;
    destruct (N.compare y z) eqn:E2; try lia.
  - apply N.compare_eq in E1, E2. subst. rewrite N.compare_refl. apply IH.
  - apply N.compare_eq in E1. subst. rewrite E2. lia.
  - apply N.compare_eq in E2. subst. rewrite E1. lia.
  - rewrite N.compare_lt_iff in E1, E2.
    assert (E : N.compare x z = Lt) by (apply N.compare_lt_iff; lia).
    rewrite E. lia.
Qed.

Lemma basicHost_consistent (p : os) : consistentComparator (H := basicHost p).
Proof.
  split.
  - intros a b. simpl. rewrite (codeUnitCompare_flip a b). lia.
  - intros a b c. apply codeUnitCompare_trans.
Qed.

(* ================================================================== *)
(** * The theorems at work on the samples *)
(* ================================================================== *)

(** The bound of C1 on [src/App.js] in the sample snapshot. *)
Lemma text_within_cap_and_marker_witness :
  loadResources (H := basicHost Posix) sampleTree = Some sampleSnapshot
  /\ In appResource sampleSnapshot
  /\ truncated appResource = false
  /\ (len (text appResource) <= MAX_CHARS_PER_FILE)%Z.
Proof.
  assert (L : loadResources (H := basicHost Posix) sampleTree = Some sampleSnapshot)
    by (vm_compute; reflexivity).
  assert (I : In appResource sampleSnapshot)
    by (apply nth_In; vm_compute; lia).
  split; [exact L|]. split; [exact I|]. split; [reflexivity|].
  exact (proj1 (text_within_cap_and_marker (H := basicHost Posix)
                  sampleTree sampleSnapshot L appResource I) eq_refl).
Defined.

(** The bound of C2 on the sample snapshot. *)
Lemma total_within_cap_and_marker_witness :
  loadResources (H := basicHost Posix) sampleTree = Some sampleSnapshot
  /\ (totalChars sampleSnapshot <= MAX_TOTAL_CHARS + 25)%Z.
Proof.
  assert (L : loadResources (H := basicHost Posix) sampleTree = Some sampleSnapshot)
    by (vm_compute; reflexivity).
  split; [exact L|].
  exact (proj1 (total_within_cap_and_marker (H := basicHost Posix)
                  sampleTree sampleSnapshot L)).
Defined.

(** The sample tree is valid, and C3 gives its snapshot. *)
Lemma snapshot_paths_within_budgets_witness :
  validTree (H := basicHost Posix) sampleTree = true
  /\ exists rs,
       loadResources (H := basicHost Posix) sampleTree = Some rs
       /\ (forall p, In p (map path rs)
                     -> eligiblePath (H := basicHost Posix) sampleTree p)
       /\ ((Z.of_nat (List.length rs) < MAX_FILES)%Z ->
           (totalChars rs < MAX_TOTAL_CHARS)%Z ->
           forall p, In p (map path rs)
                     <-> eligiblePath (H := basicHost Posix) sampleTree p).
Proof.
  assert (V : validTree (H := basicHost Posix) sampleTree = true)
    by (vm_compute; reflexivity).
  split; [exact V|].
  apply (snapshot_paths_within_budgets (H := basicHost Posix) sampleTree V).
Defined.

(** The four ways a request can go. *)
Lemma loadContext_never_rejects_witness :
  outcome (fst (loadProjectContext networkDown freshSession))
  = Fulfilled getFallbackProjectContext
  /\ outcome (fst (loadProjectContext networkNotFound freshSession))
     = Fulfilled getFallbackProjectContext
  /\ outcome (fst (loadProjectContext networkGarbled freshSession))
     = Fulfilled getFallbackProjectContext
  /\ outcome (fst (loadProjectContext networkServing freshSession))
     = Fulfilled sampleContext.
Proof.
  split; [|split; [|split]].
  - exact (proj1 (proj2 (loadContext_never_rejects networkDown)) _ eq_refl).
  - exact (proj1 (proj2 (proj2 (loadContext_never_rejects networkNotFound)))
                 _ eq_refl eq_refl).
  - exact (proj1 (proj2 (proj2 (proj2 (loadContext_never_rejects networkGarbled))))
                 _ _ eq_refl eq_refl eq_refl).
  - exact (proj1 (proj2 (proj2 (proj2 (proj2
             (loadContext_never_rejects networkServing)))))
                 _ _ eq_refl eq_refl eq_refl).
Defined.

(** A uri of the sample context and one that is not in it. *)
Lemma getResource_total_witness :
  (exists item,
      contents (getIn sampleContext (lit "file:///src/App.js")) = [item]
      /\ content_text item = text appResource)
  /\ includes (lit "Resource not found for uri: " ++ lit "file:///missing.js")
              (lit "file:///missing.js") = true.
Proof.
  split.
  - refine (proj1 (proj2 (proj2 (getResource_total sampleContext
                                   (lit "file:///src/App.js"))))
                  appResource _ _ _).
    + apply nth_In. vm_compute. lia.
    + reflexivity.
    + intros r' I E.
      repeat (destruct I as [<- | I]; [try reflexivity; discriminate E|]).
      destruct I.
  - refine (proj2 (proj2 (proj2 (proj2 (getResource_total sampleContext
                                          (lit "file:///missing.js")))) _)).
    intros r I E.
    repeat (destruct I as [<- | I]; [discriminate E|]).
    destruct I.
Defined.

(** A search text with a blank after it and an absent one on the sample
    context. *)
Lemma listResources_trimmed_search_witness :
  lowerKeepsWhiteSpace (H := basicHost Posix)
  /\ listIn (H := basicHost Posix) sampleContext (Some (lit "app "))
     = map describe
           (filter (mentionsTrimmed (H := basicHost Posix) (lit "app "))
                   (resources sampleContext))
  /\ listIn (H := basicHost Posix) sampleContext None
     = map describe (resources sampleContext).
Proof.
  pose proof (listResources_trimmed_search (H := basicHost Posix) sampleContext
                (basicHost_lowerKeepsWhiteSpace Posix)) as T.
  split; [apply basicHost_lowerKeepsWhiteSpace|].
  split; [exact (proj1 (proj2 (proj2 T)) (lit "app ")) | exact (proj1 T)].
Defined.

(** Three blanks as search text. *)
Lemma listResources_blank_search_witness :
  lowerKeepsWhiteSpace (H := basicHost Posix)
  /\ blank (lit "   ")
  /\ listIn (H := basicHost Posix) sampleContext (Some (lit "   "))
     = listIn (H := basicHost Posix) sampleContext (Some []).
Proof.
  assert (B : blank (lit "   ")) by (repeat constructor).
  split; [apply basicHost_lowerKeepsWhiteSpace|]. split; [exact B|].
  exact (proj1 (listResources_blank_search (H := basicHost Posix) sampleContext
                  (lit "   ") (basicHost_lowerKeepsWhiteSpace Posix) B)).
Defined.


(** Five calls in a row on a fresh session. *)
Lemma fetch_at_most_once_witness :
  let cs := [ListResources None; GetResource (lit "file:///src/App.js");
             GetSummary; LoadContext; GetVersion] in
  cs <> []
  /\ requests (snd (performAll (H := basicHost Posix) networkServing freshSession cs))
     = 1
  /\ assignments (snd (performAll (H := basicHost Posix) networkServing freshSession cs))
     = 1.
Proof.
  intros cs.
  assert (N : cs <> []) by discriminate.
  split; [exact N|].
  exact (proj1 (proj2 (proj2 (fetch_at_most_once (H := basicHost Posix)
                                networkServing cs))) N).
Defined.

(* ================================================================== *)
(** * Further properties of the snapshot *)
(* ================================================================== *)

Section SnapshotProperties.

Context `{Host}.

(** Where the resources of the result come from. *)
Lemma loadLoop_madeFrom (read : list jsstring -> option jsstring)
      (files0 : list fileRef) (files : list fileRef) :
  forall rs total out,
    incl files files0 ->
    Forall (madeFrom read files0) rs ->
    loadLoop read files rs total = Some out ->
    Forall (madeFrom read files0) out.
Proof.
  induction files as [|file rest IH]; intros rs total out I F E.
  - cbn [loadLoop] in E. injection E as <-. exact F.
  - assert (I' : incl rest files0)
      by (intros x Ix; apply I; right; exact Ix).
    apply loadLoop_cons in E.
    destruct E as [[-> _] | [C1 [C2 [raw [R [[B E] | [B [cap [Ec [Pc [txt [Et E]]]]]]]]]]]].
    + exact F.
    + exact (IH rs total out I' F E).
    + refine (IH _ _ out I' _ E).
      apply Forall_app. split; [exact F|]. constructor; [|constructor].
      exists file, raw, cap.
      split; [apply I; left; reflexivity|].
      split; [exact R|]. split; [exact B|].
      split; [unfold MAX_CHARS_PER_FILE in *; lia|].
      subst txt. reflexivity.
Qed.

Lemma loadResources_madeFrom (root : list entry) (rs : list resource) :
  loadResources root = Some rs ->
  Forall (madeFrom (readFileSync root) (collectFiles [] root [])) rs.
Proof.
  intros L. unfold loadResources in L.
  apply (loadLoop_madeFrom _ (sortFiles (collectFiles [] root [])) _ _ _ _
                           (incl_refl _) (Forall_nil _)) in L.
  eapply Forall_impl; [|exact L].
  intros r [file [raw [cap [I R]]]]. exists file, raw, cap.
  split; [apply (proj1 (sortFiles_In _ _) I) | exact R].
Qed.

Lemma loadResources_at_most (root : list entry) (rs : list resource) :
  loadResources root = Some rs ->
  (Z.of_nat (List.length rs) <= MAX_FILES)%Z.
Proof.
  apply (loadLoop_invariant (readFileSync root)
           (fun rs => (Z.of_nat (List.length rs) <= MAX_FILES)%Z)).
  - intros file raw rs0 cap _ C _ _ _ _.
    rewrite length_app. simpl. lia.
  - simpl. unfold MAX_FILES. lia.
Qed.

(** X1.  A snapshot never holds more than [MAX_FILES] resources. *)
Theorem snapshot_at_most_max_files (root : list entry) (rs : list resource) :
  loadResources root = Some rs ->
  (Z.of_nat (List.length rs) <= MAX_FILES)%Z.
Proof. apply loadResources_at_most. Qed.

Lemma storedText_no_nul (raw : jsstring) (cap : Z) :
  ~ In 0%N raw -> ~ In 0%N (storedText raw cap).
Proof.
  intros N. unfold storedText. destruct (cap <? len raw)%Z; [|exact N].
  intros I. apply in_app_or in I. destruct I as [I | I].
  - apply N. unfold slice0 in I. exact (In_firstn _ _ _ _ I).
  - vm_compute in I. intuition discriminate.
Qed.

(** X2.  No [text] of a snapshot contains a NUL, truncated or not. *)
Theorem snapshot_texts_without_nul (root : list entry) (rs : list resource) :
  loadResources root = Some rs ->
  forall r, In r rs -> ~ In 0%N (text r).
Proof.
  intros L r I.
  pose proof (loadResources_madeFrom root rs L) as M.
  rewrite Forall_forall in M.
  destruct (M r I) as [file [raw [cap [_ [_ [B [_ ->]]]]]]].
  cbn [text makeResource].
  apply storedText_no_nul, isBinaryLike_spec, B.
Qed.

End SnapshotProperties.

Lemma takeWhile_app_stop (f : N -> bool) (a b : jsstring) :
  Forall (fun c => f c = true) a ->
  (b = [] \/ exists c b', b = c :: b' /\ f c = false) ->
  takeWhile f (a ++ b) = a.
Proof.
  induction 1 as [|x a Fx _ IH]; intros S; simpl.
  - destruct S as [-> | [c [b' [-> Fc]]]]; simpl; [reflexivity|].
    rewrite Fc. reflexivity.
  - rewrite Fx, (IH S). reflexivity.
Qed.

Lemma skipDrive_no_colon (p : os) (s : jsstring) :
  Forall (fun c => c <> colon) s -> skipDrive p s = s.
Proof.
  intros F. destruct p; [destruct s as [|? [|? ?]]; reflexivity|].
  destruct s as [|c [|c' s]]; try reflexivity.
  simpl. inversion F as [|? ? _ F']; subst.
  inversion F' as [|? ? C _]; subst.
  apply N.eqb_neq in C. rewrite C, andb_false_r. reflexivity.
Qed.

(** A path that ends in a name ends in that name after a ["/"], or is
    that name. *)
Lemma join_ends_with_name (dirs : list jsstring) (n : jsstring) :
  exists prefix,
    join [slash] (dirs ++ [n]) = prefix ++ n
    /\ (prefix = [] \/ exists before, prefix = before ++ [slash]).
Proof.
  induction dirs as [|d dirs [prefix [E S]]].
  - exists []. split; [reflexivity | left; reflexivity].
  - exists (d ++ slash :: prefix). split.
    + rewrite join_cons_snoc, E, <- app_assoc. reflexivity.
    + right. destruct S as [-> | [before ->]].
      * exists d. reflexivity.
      * exists (d ++ slash :: before). rewrite <- app_assoc. reflexivity.
Qed.

Section IdentityProperties.

Context `{Host}.

Lemma reserved_not_separator (c : N) :
  reservedChar c = false -> isSeparator platform c = false.
Proof.
  unfold reservedChar, isSeparator. destruct platform; intros E; [exact E|].
  apply orb_false_iff in E. destruct E as [E1 E2].
  apply orb_false_iff in E2. destruct E2 as [E2 _].
  rewrite E1, E2. reflexivity.
Qed.

Lemma validName_not_separator (n : jsstring) :
  validName n = true ->
  Forall (fun c => isSeparator platform c = false) n.
Proof.
  rewrite validName_spec. intros F. eapply Forall_impl; [|exact F].
  apply reserved_not_separator.
Qed.

Lemma skipDrive_path (names : list jsstring) :
  Forall (fun n => validName n = true) names ->
  skipDrive platform (join [slash] names) = join [slash] names.
Proof.
  intros F. destruct platform eqn:P.
  - destruct (join [slash] names) as [|? [|? ?]]; reflexivity.
  - apply skipDrive_no_colon. apply Forall_join; [discriminate|].
    eapply Forall_impl; [|exact F]. intros n V.
    apply validName_spec in V. eapply Forall_impl; [|exact V].
    intros c R. unfold reservedChar in R. rewrite P in R.
    rewrite !orb_false_iff, !N.eqb_neq in R. tauto.
Qed.

(** The base name of the path of a file is the name of the file. *)
Lemma basename_path (dirs : list jsstring) (n : jsstring) :
  Forall (fun n => validName n = true) (dirs ++ [n]) ->
  n <> [] ->
  basename platform (join [slash] (dirs ++ [n])) = n.
Proof.
  intros F NE. unfold basename, revBasename.
  rewrite (skipDrive_path _ F).
  destruct (join_ends_with_name dirs n) as [prefix [E S]].
  rewrite E, rev_app_distr.
  assert (Vn : Forall (fun c => isSeparator platform c = false) (rev n)).
  { apply Forall_rev, validName_not_separator.
    apply Forall_app in F. destruct F as [_ F]. exact (Forall_inv F). }
  assert (D : dropWhile (isSeparator platform) (rev n ++ rev prefix)
              = rev n ++ rev prefix).
  { destruct (rev n) as [|c tl] eqn:R.
    - apply (f_equal (@rev N)) in R. rewrite rev_involutive in R.
      simpl in R. contradiction.
    - simpl. rewrite (Forall_inv Vn). reflexivity. }
  rewrite D, takeWhile_app_stop.
  - apply rev_involutive.
  - eapply Forall_impl; [|exact Vn]. intros c Sc. simpl. rewrite Sc. reflexivity.
  - destruct S as [-> | [before ->]]; [left; reflexivity|].
    right. rewrite rev_app_distr. simpl.
    exists slash, (rev before). split; [reflexivity|].
    unfold isSeparator. rewrite N.eqb_refl. reflexivity.
Qed.

(** Every resource of a snapshot of a valid tree, with the file it was
    made from. *)
Lemma snapshot_resource_origin (root : list entry) (rs : list resource) :
  validTree root = true ->
  loadResources root = Some rs ->
  forall r, In r rs ->
    exists dirs n c cap,
      fileAt root dirs n c
      /\ selected dirs n
      /\ ~ In 0%N c
      /\ (0 < cap <= MAX_CHARS_PER_FILE)%Z
      /\ Forall (fun n => validName n = true) (dirs ++ [n])
      /\ r = makeResource {| fullPath := dirs ++ [n];
                             relativePath := join [slash] (dirs ++ [n]) |}
                          (storedText c cap) (cap <? len c)%Z.
Proof.
  intros V L r I.
  pose proof (loadResources_madeFrom root rs L) as M.
  rewrite Forall_forall in M.
  destruct (M r I) as [file [raw [cap [If [R [B [C ->]]]]]]].
  apply (proj1 (collectFiles_selected _ _ V)) in If.
  destruct If as [dirs [n [c [F [S [R' [P Rel]]]]]]].
  assert (raw = c) by congruence. subst raw.
  exists dirs, n, c, cap.
  split; [exact F|]. split; [exact S|].
  split; [apply isBinaryLike_spec, B|]. split; [exact C|].
  split; [apply (fileAt_validNames _ _ _ _ F V)|].
  destruct file as [full rel]. cbn [fullPath relativePath] in *.
  subst. reflexivity.
Qed.

(** X3.  In a snapshot of a valid tree every resource stands for a file
    of the tree: its [path] is the names from the root to the file
    joined with ["/"], its [uri] is ["file:///"] followed by the path,
    and its [name] is the name of the file. *)
Theorem resource_identifies_its_file (root : list entry) (rs : list resource) :
  validTree root = true ->
  loadResources root = Some rs ->
  forall r, In r rs ->
    exists dirs n c,
      fileAt root dirs n c
      /\ path r = join [slash] (dirs ++ [n])
      /\ uri r = lit "file:///" ++ path r
      /\ (n <> [] -> name r = n).
Proof.
  intros V L r I.
  destruct (snapshot_resource_origin root rs V L r I)
    as [dirs [n [c [cap [F [_ [_ [_ [VN ->]]]]]]]]].
  exists dirs, n, c. split; [exact F|].
  cbn [path uri name makeResource relativePath].
  split; [reflexivity|]. split; [reflexivity|].
  intros NE. apply (basename_path dirs n VN NE).
Qed.

(** X4.  In a snapshot of a valid tree a resource that is not flagged
    [truncated] carries the content of its file unchanged, and the file
    has at most [MAX_CHARS_PER_FILE] code units; a resource that is
    flagged carries a proper prefix of the content, of at least one and
    at most [MAX_CHARS_PER_FILE] code units, followed by the marker. *)
Theorem text_is_content_or_marked_prefix (root : list entry) (rs : list resource) :
  validTree root = true ->
  loadResources root = Some rs ->
  forall r, In r rs ->
    exists dirs n c,
      fileAt root dirs n c
      /\ path r = join [slash] (dirs ++ [n])
      /\ (truncated r = false ->
          text r = c /\ (len c <= MAX_CHARS_PER_FILE)%Z)
      /\ (truncated r = true ->
          exists cap,
            (0 < cap <= MAX_CHARS_PER_FILE)%Z
            /\ (cap < len c)%Z
            /\ text r = slice0 c cap ++ truncationMarker).
Proof.
  intros V L r I.
  destruct (snapshot_resource_origin root rs V L r I)
    as [dirs [n [c [cap [F [_ [_ [C [_ ->]]]]]]]]].
  exists dirs, n, c. split; [exact F|].
  cbn [path text truncated makeResource relativePath]. unfold storedText.
  split; [reflexivity|].
  destruct (cap <? len c)%Z eqn:T.
  - apply Z.ltb_lt in T. split; [discriminate|].
    intros _. exists cap. auto.
  - apply Z.ltb_ge in T. split; [|discriminate].
    intros _. split; [reflexivity | lia].
Qed.

End IdentityProperties.

Lemma NoDup_map_firstn (A B : Type) (f : A -> B) (k : nat) (l : list A) :
  NoDup (map f l) -> NoDup (map f (firstn k l)).
Proof.
  revert k. induction l as [|a l IH]; intros [|k] D; simpl; try constructor.
  - simpl in D. inversion D as [|? ? N D']; subst.
    intros I. apply N. apply in_map_iff in I. destruct I as [x [E I]].
    apply in_map_iff. exists x. split; [exact E | exact (In_firstn _ _ _ _ I)].
  - apply IH. simpl in D. inversion D. assumption.
Qed.

Lemma NoDup_map_filter (A B : Type) (f : A -> B) (g : A -> bool) (l : list A) :
  NoDup (map f l) -> NoDup (map f (filter g l)).
Proof.
  induction l as [|a l IH]; intros D; simpl; [constructor|].
  simpl in D. inversion D as [|? ? N D']; subst.
  destruct (g a); [|exact (IH D')].
  simpl. constructor; [|exact (IH D')].
  intros I. apply N. apply in_map_iff in I. destruct I as [x [E I]].
  apply in_map_iff. exists x. split; [exact E|].
  apply filter_In in I. tauto.
Qed.

Lemma filter_firstn (A : Type) (g : A -> bool) (l : list A) :
  forall k,
    filter g (firstn k l)
    = firstn (List.length (filter g (firstn k l))) (filter g l).
Proof.
  induction l as [|a l IH]; intros [|k]; try reflexivity.
  cbn [firstn filter]. destruct (g a); cbn [List.length firstn].
  - f_equal. apply IH.
  - apply IH.
Qed.

Section UniquenessProperties.

Context `{Host}.

Lemma collected_under_entry (d : list jsstring) (e : entry) (f : fileRef) :
  In f (collectEntry d e []) ->
  exists rest, fullPath f = d ++ entryName e :: rest.
Proof.
  intros I. apply collectEntry_spec in I.
  destruct I as [dirs [n [c [F [_ [_ ->]]]]]]. cbn [fullPath refOf].
  destruct e as [n0 c0 | d0 sub].
  - apply fileAt_file in F. destruct F as [-> [-> _]]. exists []. reflexivity.
  - apply fileAt_dir in F. destruct F as [dirs' [-> _]].
    exists (dirs' ++ [n]). reflexivity.
Qed.

Lemma collectFiles_NoDup_listing (es : list entry) :
  Forall (fun e => forall d, NoDup (collectEntry d e [])) es ->
  NoDup (map entryName es) ->
  forall d, NoDup (collectFiles d es []).
Proof.
  induction 1 as [|e es He _ IH]; intros D d.
  - constructor.
  - simpl in D. inversion D as [|? ? N D']; subst.
    rewrite collectFiles_cons. apply NoDup_app; [apply He | apply IH, D' |].
    intros f I1 I2. apply collected_under_entry in I1. destruct I1 as [rest E1].
    rewrite collectFiles_flat in I2. apply in_flat_map in I2.
    destruct I2 as [e' [I' I2]].
    apply collected_under_entry in I2. destruct I2 as [rest' E2].
    rewrite E1 in E2. apply app_inv_head in E2. injection E2 as E2 _.
    apply N. rewrite E2. apply in_map. exact I'.
Qed.

Lemma collectEntry_NoDup (e : entry) :
  validEntry e = true -> forall d, NoDup (collectEntry d e []).
Proof.
  induction e as [n c | n sub IH] using entry_induction; intros V d.
  - rewrite collectEntry_file. destruct (skipsFile _ _); repeat constructor.
    intros [].
  - rewrite collectEntry_dir. destruct (has IGNORED_DIRS n); [constructor|].
    apply validEntry_dir in V. destruct V as [_ V].
    apply validTree_spec in V. destruct V as [D V].
    apply collectFiles_NoDup_listing; [|exact D].
    rewrite Forall_forall in *. intros e I. apply (IH e I), V, I.
Qed.

Lemma collectFiles_NoDup (root : list entry) :
  validTree root = true -> NoDup (collectFiles [] root []).
Proof.
  intros V. apply validTree_spec in V. destruct V as [D V].
  apply collectFiles_NoDup_listing; [|exact D].
  apply Forall_forall. intros e I. apply collectEntry_NoDup, V, I.
Qed.

Lemma sorted_paths_NoDup (root : list entry) :
  validTree root = true ->
  NoDup (map relativePath (sortFiles (collectFiles [] root []))).
Proof.
  intros V.
  apply (Permutation_NoDup
           (Permutation_map relativePath
              (Permutation_sym (sortFiles_Permutation (collectFiles [] root []))))).
  apply NoDup_map_NoDup_ForallPairs; [|apply collectFiles_NoDup, V].
  intros a b Ia Ib E. apply (collected_by_path root a b V Ia Ib E).
Qed.

Lemma snapshot_paths_NoDup (root : list entry) (rs : list resource) :
  validTree root = true ->
  loadResources root = Some rs ->
  NoDup (map path rs).
Proof.
  intros V L. destruct (loadResources_shape root rs L) as [k [-> _]].
  apply NoDup_map_filter, NoDup_map_firstn, sorted_paths_NoDup, V.
Qed.

Lemma snapshot_uris_NoDup (root : list entry) (rs : list resource) :
  validTree root = true ->
  loadResources root = Some rs ->
  NoDup (map uri rs).
Proof.
  intros V L.
  pose proof (snapshot_paths_NoDup root rs V L) as P.
  pose proof (loadResources_madeFrom root rs L) as M.
  rewrite Forall_forall in M.
  clear - P M. induction rs as [|x rs IH]; [constructor|].
  simpl in P. inversion P as [|? ? N P']; subst.
  simpl. constructor.
  - intros Ix. apply N. apply in_map_iff in Ix. destruct Ix as [y [Ey Iy]].
    destruct (M x (or_introl eq_refl)) as [fx [? [? [_ [_ [_ [_ Ex]]]]]]].
    destruct (M y (or_intror Iy)) as [fy [? [? [_ [_ [_ [_ Ey']]]]]]].
    rewrite Ex, Ey' in Ey. cbn [uri makeResource] in Ey.
    apply app_inv_head in Ey.
    apply in_map_iff. exists y. split; [|exact Iy].
    rewrite Ex, Ey'. cbn [path makeResource]. exact Ey.
  - apply IH; [exact P'|]. intros y Iy. apply M. right. exact Iy.
Qed.

(** X5.  In a snapshot of a valid tree no two resources have the same
    [path], nor the same [uri]. *)
Theorem snapshot_paths_unique (root : list entry) (rs : list resource) :
  validTree root = true ->
  loadResources root = Some rs ->
  NoDup (map path rs) /\ NoDup (map uri rs).
Proof.
  intros V L. split.
  - apply (snapshot_paths_NoDup root rs V L).
  - apply (snapshot_uris_NoDup root rs V L).
Qed.

Lemma candidatePaths_eligible (root : list entry) (p : jsstring) :
  validTree root = true ->
  In p (candidatePaths root) <-> eligiblePath root p.
Proof.
  intros V. unfold candidatePaths. rewrite in_map_iff. split.
  - intros [f [<- I]]. apply filter_In in I. destruct I as [I K].
    apply (proj1 (sortFiles_In _ _)) in I.
    apply (proj1 (collectFiles_selected _ _ V)) in I.
    destruct I as [dirs [n [c [F [S [R [_ Rel]]]]]]].
    unfold keeps in K. rewrite R in K.
    apply negb_true_iff, isBinaryLike_spec in K.
    exists dirs, n, c. auto.
  - intros [dirs [n [c [F [S [Z ->]]]]]].
    exists {| fullPath := dirs ++ [n];
              relativePath := join [slash] (dirs ++ [n]) |}.
    split; [reflexivity|]. apply filter_In. split.
    + apply sortFiles_In. apply (collectFiles_selected _ _ V).
      exists dirs, n, c. split; [exact F|]. split; [exact S|].
      cbn [fullPath relativePath].
      split; [apply (fileAt_readFileSync _ _ _ _ F V)|]. split; reflexivity.
    + unfold keeps. cbn [fullPath].
      rewrite (fileAt_readFileSync _ _ _ _ F V).
      apply negb_true_iff, isBinaryLike_spec. exact Z.
Qed.

Lemma getMimeType_known (filePath : jsstring) :
  In (getMimeType filePath) mimeTypes.
Proof.
  unfold getMimeType, mimeTypes.
  repeat match goal with
         | |- context [if ?b then _ else _] => destruct b
         end; simpl; tauto.
Qed.

Lemma loadResources_prefix (root : list entry) (rs : list resource) :
  loadResources root = Some rs ->
  map path rs = firstn (List.length rs) (candidatePaths root).
Proof.
  intros L. destruct (loadResources_shape root rs L) as [k [P _]].
  unfold candidatePaths.
  rewrite <- (length_map path rs), P, length_map.
  rewrite filter_firstn at 1. symmetry. apply firstn_map.
Qed.

(** X7.  The paths of a snapshot are the first paths of the list of
    candidates, what a budget leaves out being always the end of that
    list; on a valid tree the candidates are the paths of the selected
    files without NUL, and with a consistent [localeCompare] they are
    listed in ascending order. *)
Theorem snapshot_is_prefix_of_candidates (root : list entry) (rs : list resource) :
  loadResources root = Some rs ->
  map path rs = firstn (List.length rs) (candidatePaths root)
  /\ (validTree root = true ->
      forall p, In p (candidatePaths root) <-> eligiblePath root p)
  /\ (consistentComparator -> ascending (candidatePaths root)).
Proof.
  intros L. split; [|split].
  - apply loadResources_prefix, L.
  - intros V p. apply candidatePaths_eligible, V.
  - intros C. apply StronglySorted_paths, StronglySorted_filter,
                sortFiles_sorted, C.
Qed.

(** X22.  Unless the total cap is reached, a snapshot holds as many
    resources as there are candidates, up to [MAX_FILES]: the files
    that are skipped for a NUL take no place in the count. *)
Theorem snapshot_count (root : list entry) (rs : list resource) :
  loadResources root = Some rs ->
  (totalChars rs < MAX_TOTAL_CHARS)%Z ->
  List.length rs
  = Nat.min (Z.to_nat MAX_FILES) (List.length (candidatePaths root)).
Proof.
  intros L T.
  pose proof (loadResources_at_most root rs L) as A.
  pose proof (loadResources_prefix root rs L) as P.
  assert (Le : List.length rs <= List.length (candidatePaths root)).
  { apply (f_equal (@List.length jsstring)) in P.
    rewrite length_map, length_firstn in P. lia. }
  destruct (loadResources_shape root rs L) as [k [S [K | [K | K]]]].
  - subst k. rewrite firstn_all in S.
    assert (E : map path rs = candidatePaths root) by exact S.
    apply (f_equal (@List.length jsstring)) in E.
    rewrite length_map in E.
    unfold MAX_FILES in *. lia.
  - unfold MAX_FILES in *. lia.
  - lia.
Qed.

(** X23.  The [mimeType] of every resource of a snapshot is the one
    [getMimeType] gives for its [path], one of the five values of the
    table, and so never empty. *)
Theorem snapshot_mimeTypes_known (root : list entry) (rs : list resource) :
  loadResources root = Some rs ->
  forall r, In r rs ->
    mimeType r = getMimeType (path r)
    /\ In (mimeType r) mimeTypes
    /\ mimeType r <> [].
Proof.
  intros L r I.
  pose proof (loadResources_madeFrom root rs L) as M.
  rewrite Forall_forall in M.
  destruct (M r I) as [f [raw [cap [_ [_ [_ [_ ->]]]]]]].
  cbn [mimeType path makeResource].
  split; [reflexivity|].
  pose proof (getMimeType_known (relativePath f)) as K.
  split; [exact K|].
  unfold mimeTypes in K. simpl in K.
  repeat (destruct K as [<- | K]; [discriminate|]). destruct K.
Qed.

Lemma find_by_uri (rs : list resource) (r : resource) :
  NoDup (map uri rs) ->
  In r rs ->
  find (fun item => streq (uri item) (uri r)) rs = Some r.
Proof.
  induction rs as [|x rs IH]; intros D I; [destruct I|].
  simpl in D. inversion D as [|? ? N D']; subst.
  simpl. destruct I as [-> | I].
  - rewrite streq_refl. reflexivity.
  - destruct (streq (uri x) (uri r)) eqn:E; [|apply IH; assumption].
    apply streq_spec in E. destruct N. rewrite E. apply in_map, I.
Qed.

(** X6.  Served by the shim, a snapshot of a valid tree gives every
    resource back under its own [uri]: [getProjectResource] returns the
    one content item with the [uri], the [mimeType] and the [text] of
    that resource. *)
Theorem snapshot_resource_round_trip
        (root : list entry) (rs : list resource) (ctx : context) :
  validTree root = true ->
  loadResources root = Some rs ->
  resources ctx = rs ->
  forall r, In r rs ->
    getIn ctx (uri r)
    = {| contents := [ {| content_uri := uri r;
                          content_mimeType := mimeType r;
                          content_text := text r |} ] |}.
Proof.
  intros V L E r I.
  pose proof (snapshot_uris_NoDup root rs V L) as U.
  unfold getIn. rewrite E, (find_by_uri rs r U I).
  pose proof (loadResources_madeFrom root rs L) as M.
  rewrite Forall_forall in M.
  destruct (M r I) as [f [raw [cap [_ [_ [_ [_ Er]]]]]]].
  assert (T : truthy (mimeType r) = true).
  { rewrite Er. cbn [mimeType makeResource].
    pose proof (getMimeType_known (relativePath f)) as K.
    unfold mimeTypes in K. simpl in K.
    repeat (destruct K as [<- | K]; [reflexivity|]). destruct K. }
  unfold or_else. rewrite T. reflexivity.
Qed.

End UniquenessProperties.

(* ================================================================== *)
(** * The order of the snapshot *)
(* ================================================================== *)













Section OrderProperties2.

Context `{Host}.







End OrderProperties2.

(** ** The collating host *)





(* ================================================================== *)
(** * Further properties of the generator's helpers *)
(* ================================================================== *)



Section HelperProperties.

Context `{Host}.

(** X8.  [toPosixPath] replaces every [path.sep] by ["/"] and changes
    nothing else: it keeps the length, applying it twice is applying it
    once, and on Windows its result has no backslash. *)
Theorem toPosixPath_replaces_separators (filePath : jsstring) :
  toPosixPath filePath
  = map (fun c => if N.eqb c sep then slash else c) filePath
  /\ len (toPosixPath filePath) = len filePath
  /\ toPosixPath (toPosixPath filePath) = toPosixPath filePath
  /\ (platform = Win32 -> ~ In backslash (toPosixPath filePath))
  /\ (platform = Posix -> toPosixPath filePath = filePath).
Proof.
  assert (E : forall s, toPosixPath s
                        = map (fun c => if N.eqb c sep then slash else c) s)
    by (intros s; apply join_split_replace).
  split; [apply E|]. split; [|split; [|split]].
  - rewrite E. unfold len. rewrite length_map. reflexivity.
  - rewrite !E, map_map. apply map_ext. intros c.
    destruct (N.eqb c sep) eqn:C; [|rewrite C; reflexivity].
    destruct (N.eqb slash sep); reflexivity.
  - intros W I. rewrite E in I. apply in_map_iff in I.
    destruct I as [c [R _]]. unfold sep in R. rewrite W in R. simpl in R.
    destruct (N.eqb c backslash) eqn:C; [discriminate R|].
    apply N.eqb_neq in C. congruence.
  - intros P. unfold toPosixPath, sep. rewrite P. apply join_split.
Qed.

Lemma length_filter_negb (A : Type) (g : A -> bool) (l : list A) :
  List.length (filter g l) + List.length (filter (fun a => negb (g a)) l)
  = List.length l.
Proof.
  induction l as [|a l IH]; [reflexivity|].
  simpl. destruct (g a); simpl; lia.
Qed.

(** X9.  The summary reports the number of resources, the number of
    those whose path starts with ["src/"] as source files, and the rest
    as config/docs files: the two counts add up to the total. *)
Theorem buildSummary_counts_add_up (rs : list resource) :
  exists sourceFiles configFiles,
    sourceFiles
    = List.length (filter (fun r => startsWith (path r) (lit "src/")) rs)
    /\ sourceFiles + configFiles = List.length rs
    /\ buildSummary rs
       = lit "This is a React tic-tac-toe project with a Tambo chat interface."
         ++ lit " Context contains " ++ numberToString (List.length rs)
         ++ lit " files (" ++ numberToString sourceFiles
         ++ lit " source, " ++ numberToString configFiles
         ++ lit " config/docs)."
         ++ lit " Use listed resources to answer project-specific questions and include file paths when possible.".
Proof.
  eexists _, _. split; [reflexivity|]. split.
  - apply length_filter_negb.
  - unfold buildSummary. cbv zeta. cbn [join].
    rewrite <- !app_assoc. reflexivity.
Qed.












End HelperProperties.

(* ================================================================== *)
(** * Further properties of the shim and the chat page *)
(* ================================================================== *)

Lemma includes_trans (a b c : jsstring) :
  includes a b = true -> includes b c = true -> includes a c = true.
Proof.
  rewrite !includes_spec.
  intros [p1 [q1 ->]] [p2 [q2 ->]].
  exists (p1 ++ p2), (q2 ++ q1). rewrite <- !app_assoc. reflexivity.
Qed.

Lemma includes_nil_l (t : jsstring) : includes [] t = true -> t = [].
Proof.
  rewrite includes_spec. intros [p [q E]].
  destruct p; [|discriminate]. destruct t; [reflexivity | discriminate].
Qed.

Lemma trimStart_nil (s : jsstring) : trimStart s = [] <-> blank s.
Proof.
  split; [|apply trimStart_whitespace].
  induction s as [|c s IH]; simpl; [constructor|].
  destruct (isWhiteSpace c) eqn:W; [|discriminate].
  intros E. constructor; [exact W | exact (IH E)].
Qed.

Lemma trimStart_blank_iff (s : jsstring) : blank (trimStart s) <-> blank s.
Proof.
  induction s as [|c s IH]; simpl; [tauto|].
  destruct (isWhiteSpace c) eqn:W.
  - rewrite IH. split; [constructor; assumption|].
    intros B. inversion B. assumption.
  - tauto.
Qed.

(** [trim] leaves nothing exactly of the blank strings. *)
Lemma trim_nil (s : jsstring) : trim s = [] <-> blank s.
Proof.
  unfold trim, trimEnd. split.
  - intros E. apply (f_equal (@rev N)) in E. rewrite rev_involutive in E.
    simpl in E. apply trimStart_nil in E.
    apply trimStart_blank_iff. apply Forall_rev in E.
    rewrite rev_involutive in E. exact E.
  - apply trim_whitespace.
Qed.

Lemma blank_or_not (s : jsstring) :
  blank s \/ exists c, In c s /\ isWhiteSpace c = false.
Proof.
  induction s as [|c s [B | [x [I W]]]].
  - left. constructor.
  - destruct (isWhiteSpace c) eqn:W.
    + left. constructor; assumption.
    + right. exists c. split; [left; reflexivity | exact W].
  - right. exists x. split; [right; exact I | exact W].
Qed.

Section ChatProperties.

Context `{Host}.

Lemma loadProjectContext_again (network : nat -> settled response) (st : session) :
  fst (loadProjectContext network (snd (loadProjectContext network st)))
  = fst (loadProjectContext network st).
Proof.
  unfold loadProjectContext.
  destruct (projectContextPromise st) as [p|] eqn:M; simpl.
  - rewrite M. reflexivity.
  - reflexivity.
Qed.

(** Every call of a sequence is answered from the promise the first call
    gets. *)
Lemma performAll_answers (network : nat -> settled response) (cs : list call) :
  forall st,
    map snd (fst (performAll network st cs))
    = map (fun c => then_ (outcome (fst (loadProjectContext network st)))
                          (fun ctx => Fulfilled (answerOf c ctx))) cs.
Proof.
  induction cs as [|c cs IH]; intros st; [reflexivity|].
  cbn [performAll]. unfold perform.
  pose proof (loadProjectContext_again network st) as A.
  destruct (loadProjectContext network st) as [p st1]. cbn [fst snd] in *.
  specialize (IH st1). rewrite A in IH.
  destruct (performAll network st1 cs) as [rest st2]. cbn [fst snd map] in *.
  rewrite IH. reflexivity.
Qed.

(** X13.  When the request for the artifact fails, the session serves
    the fallback context: every listing is empty, every [uri] gets the
    not-found item, the summary is the placeholder and the version
    reports no timestamp and no resource. *)
Theorem failed_request_serves_fallback
        (network : nat -> settled response) (cs : list call) :
  requestFails (network 0) ->
  map snd (fst (performAll network freshSession cs))
  = map (fun c =>
           Fulfilled
             match c with
             | LoadContext => AContext getFallbackProjectContext
             | ListResources _ => AListing []
             | GetResource u =>
                 AEnvelope
                   {| contents :=
                        [ {| content_uri := u;
                             content_mimeType := lit "text/plain";
                             content_text :=
                               lit "Resource not found for uri: " ++ u |} ] |}
             | GetSummary =>
                 ASummary (lit "No local project context is available.")
             | GetVersion => AVersion None 0
             end) cs.
Proof.
  intros R.
  assert (F : contextChain (network 0) = Fulfilled getFallbackProjectContext).
  { unfold requestFails in R. unfold contextChain.
    destruct (network 0) as [r|e]; simpl; [|reflexivity].
    destruct R as [-> | [e J]]; [reflexivity|].
    destruct (ok r); simpl; [rewrite J|]; reflexivity. }
  rewrite performAll_answers.
  cbn [loadProjectContext freshSession projectContextPromise requests fst outcome].
  rewrite F. cbn [then_].
  apply map_ext. intros c. destruct c; reflexivity.
Qed.

(** X14.  Every [uri] that [listProjectResources] lists is one that
    [getProjectResource] finds: the answer is the content item of a
    resource of the context with that [uri], never the not-found item. *)
Theorem listed_uri_is_found
        (ctx : context) (search : option jsstring) (l : listedResource) :
  In l (listIn ctx search) ->
  exists r,
    In r (resources ctx)
    /\ uri r = listed_uri l
    /\ getIn ctx (listed_uri l)
       = {| contents :=
              [ {| content_uri := listed_uri l;
                   content_mimeType := or_else (mimeType r) (lit "text/plain");
                   content_text := text r |} ] |}.
Proof.
  intros I. unfold listIn in I. apply in_map_iff in I.
  destruct I as [r0 [<- I]]. apply filter_In in I. destruct I as [I _].
  cbn [listed_uri describe]. unfold getIn.
  destruct (find (fun item => streq (uri item) (uri r0)) (resources ctx))
    as [r|] eqn:F.
  - destruct (find_some _ _ F) as [Ir E]. apply streq_spec in E.
    exists r. rewrite E. auto.
  - pose proof (find_none _ _ F r0 I) as N. simpl in N.
    rewrite streq_refl in N. discriminate.
Qed.

(** X15.  A search text that contains another one lists no resource the
    other does not list: refining the search narrows the listing. *)
Theorem refined_search_narrows
        (ctx : context) (search search' : option jsstring) (l : listedResource) :
  includes (queryOf search') (queryOf search) = true ->
  In l (listIn ctx search') ->
  In l (listIn ctx search).
Proof.
  intros Q I. unfold listIn in *. apply in_map_iff in I.
  destruct I as [r [<- I]]. apply filter_In in I. destruct I as [I M].
  apply in_map, filter_In. split; [exact I|].
  unfold matchesQuery in *.
  destruct (queryOf search) as [|c q] eqn:E; [reflexivity|].
  destruct (queryOf search') as [|c' q'] eqn:E'.
  - apply includes_nil_l in Q. discriminate.
  - cbn [truthy negb] in *.
    rewrite !orb_true_iff in *.
    destruct M as [[M | M] | M];
      [left; left | left; right | right];
      apply (includes_trans _ _ _ M Q).
Qed.

End ChatProperties.

Lemma partText_textPart (part : jsvalue) :
  partText part <> [] -> textPart part (partText part).
Proof.
  unfold partText, textPart.
  destruct (valueTruthy part); simpl; [|congruence].
  destruct part as [| | b | n | s | fields | items]; try congruence.
  destruct (getField fields (lit "type")) as [| | | | type | |] eqn:T;
    try congruence.
  destruct (getField fields (lit "text")) as [| | | | text | |] eqn:X;
    try congruence.
  destruct (streq type (lit "text")) eqn:E; [|congruence].
  apply streq_spec in E. subst type. intros _. exists fields. auto.
Qed.

Lemma textPart_partText (part : jsvalue) (t : jsstring) :
  textPart part t -> partText part = t.
Proof.
  intros [fields [-> [T X]]]. unfold partText. simpl. rewrite T, X.
  reflexivity.
Qed.

(** X16.  The text of a message given as an array of parts has one line
    per part (when no part's text has a line feed of its own): the line
    of a part is its text when it is an object of type ["text"] with a
    string as text, and is empty for any other part; the empty array and
    absent content give the empty string. *)
Theorem getMessageText_one_line_per_part (items : list jsvalue) :
  (items <> [] ->
   Forall (fun part => ~ In 10%N (partText part)) items ->
   split 10 (getMessageText (VArray items)) = map partText items)
  /\ (forall part t, textPart part t -> partText part = t)
  /\ (forall part, partText part <> [] -> textPart part (partText part))
  /\ getMessageText (VArray []) = []
  /\ getMessageText VUndefined = []
  /\ getMessageText VNull = []
  /\ getMessageText (VString []) = [].
Proof.
  split; [|split; [|split]].
  - intros NE F. cbn [getMessageText valueTruthy negb].
    apply split_join.
    + destruct items; [contradiction | discriminate].
    + apply Forall_map. exact F.
  - apply textPart_partText.
  - apply partText_textPart.
  - repeat split.
Qed.

(** X17.  The form submits exactly when no submission is pending and
    the input has a code unit that is not white space; an empty or blank
    input is never submitted. *)
Theorem onSubmit_needs_text (value : jsstring) (isPending : bool) :
  onSubmit value isPending = true
  <-> isPending = false /\ exists c, In c value /\ isWhiteSpace c = false.
Proof.
  unfold onSubmit. split.
  - destruct (trim value) as [|c t] eqn:T; simpl; [discriminate|].
    destruct isPending; [discriminate|]. intros _. split; [reflexivity|].
    destruct (blank_or_not value) as [B | E]; [|exact E].
    apply trim_nil in B. congruence.
  - intros [-> [c [I W]]].
    destruct (trim value) as [|x t] eqn:T; [|reflexivity].
    apply trim_nil in T. unfold blank in T. rewrite Forall_forall in T.
    rewrite (T c I) in W. discriminate.
Qed.

(* ================================================================== *)
(** * Properties of the game *)
(* ================================================================== *)

Lemma nth_error_lt (A : Type) (l : list A) (n : nat) (x : A) :
  nth_error l n = Some x -> n < List.length l.
Proof. intros E. apply nth_error_Some. congruence. Qed.

Lemma square_nil (i : nat) : square [] i = None.
Proof. unfold square. destruct i; reflexivity. Qed.

Lemma square_setSquare_same (b : board) :
  forall i m, square (setSquare b i m) i = Some m.
Proof.
  induction b as [|c b IH]; intros i m.
  - induction i as [|i IHi]; [reflexivity | exact IHi].
  - destruct i as [|i]; [reflexivity | apply IH].
Qed.

Lemma square_setSquare_other (b : board) :
  forall i j m, i <> j -> square (setSquare b i m) j = square b j.
Proof.
  induction b as [|c b IH]; intros i j m N.
  - rewrite square_nil. revert j N.
    induction i as [|i IHi]; intros [|j] N; try reflexivity.
    + destruct N. reflexivity.
    + simpl. apply square_nil.
    + apply IHi. congruence.
  - destruct i as [|i], j as [|j]; try reflexivity.
    + destruct N. reflexivity.
    + apply (IH i j m). congruence.
Qed.

Lemma marks_setSquare (p : player) (b : board) :
  forall i m,
    square b i = None ->
    marks p (setSquare b i m)
    = marks p b + match m, p with X, X | O, O => 1 | _, _ => 0 end.
Proof.
  induction b as [|c b IH]; intros i m E.
  - clear E. induction i as [|i IHi].
    + destruct m, p; reflexivity.
    + exact IHi.
  - destruct i as [|i].
    + unfold square in E. simpl in E. subst c.
      unfold marks. simpl. destruct m, p; simpl; lia.
    + specialize (IH i m E). unfold marks in *. simpl.
      destruct c as [[|]|], p; simpl; rewrite IH; lia.
Qed.

Section GameProperties.

Variable calculateWinner : board -> option player.

Lemma current_board (st : gameState) :
  stepNumber st < List.length (history st) ->
  List.length (firstn (stepNumber st + 1) (history st)) = stepNumber st + 1
  /\ nth_error (firstn (stepNumber st + 1) (history st))
               (List.length (firstn (stepNumber st + 1) (history st)) - 1)
     = nth_error (history st) (stepNumber st)
  /\ exists current, nth_error (history st) (stepNumber st) = Some current.
Proof.
  intros L.
  assert (E : List.length (firstn (stepNumber st + 1) (history st))
              = stepNumber st + 1)
    by (apply firstn_length_le; lia).
  split; [exact E|]. split.
  - rewrite E, nth_error_firstn.
    replace (stepNumber st + 1 - 1) with (stepNumber st) by lia.
    destruct (Nat.ltb_spec (stepNumber st) (stepNumber st + 1)); [reflexivity | lia].
  - destruct (nth_error (history st) (stepNumber st)) as [b|] eqn:N; [eauto|].
    apply nth_error_None in N. lia.
Qed.

(** A click in a state that satisfies the invariant: nothing changes, or
    a board is added after the current one. *)
Lemma handleClick_cases (st st' : gameState) (i : nat) :
  stepNumber st < List.length (history st) ->
  handleClick calculateWinner st i = Some st' ->
  exists current,
    nth_error (history st) (stepNumber st) = Some current
    /\ ((st' = st
         /\ (calculateWinner current <> None \/ square current i <> None))
        \/ (calculateWinner current = None
            /\ square current i = None
            /\ st' = {| history :=
                          firstn (stepNumber st + 1) (history st)
                          ++ [setSquare current i (if xIsNext st then X else O)];
                        stepNumber := stepNumber st + 1;
                        xIsNext := negb (xIsNext st) |})).
Proof.
  intros L C. destruct (current_board st L) as [E [N [current Cur]]].
  unfold handleClick in C. cbv zeta in C. rewrite N, Cur, E in C.
  exists current. split; [exact Cur|].
  destruct (calculateWinner current) as [w|] eqn:W; simpl in C.
  - injection C as <-. left. split; [reflexivity | left; discriminate].
  - destruct (square current i) as [m|] eqn:S; simpl in C.
    + injection C as <-. left. split; [reflexivity | right; discriminate].
    + injection C as <-. right. auto.
Qed.

Lemma reachable_gameInv (st : gameState) :
  reachable calculateWinner st -> gameInv calculateWinner st.
Proof.
  induction 1 as [| st i st' _ [[Z R] [L P]] C | st step _ [R [L P]] J].
  - split; [|split; [simpl; lia | reflexivity]].
    split; [reflexivity|].
    intros k b b' _ N. destruct k; discriminate N.
  - destruct (handleClick_cases st st' i L C)
      as [current [Cur [[-> _] | [W [Sq ->]]]]].
    + split; [split; assumption | split; assumption].
    + destruct (current_board st L) as [E _].
      unfold gameInv, gameRecord. cbn [history stepNumber xIsNext].
      split; [split|split].
      * rewrite nth_error_app1 by lia.
        rewrite nth_error_firstn.
        destruct (Nat.ltb_spec 0 (stepNumber st + 1)); [exact Z | lia].
      * intros k b b' Nk Nk'.
        destruct (Nat.lt_trichotomy (S k) (stepNumber st + 1)) as [Lt | [Eq | Gt]].
        -- rewrite nth_error_app1 in Nk, Nk' by lia.
           rewrite nth_error_firstn in Nk, Nk'.
           destruct (Nat.ltb_spec k (stepNumber st + 1)); [|lia].
           destruct (Nat.ltb_spec (S k) (stepNumber st + 1)); [|lia].
           apply (R k b b' Nk Nk').
        -- assert (k = stepNumber st) by lia. subst k.
           rewrite nth_error_app1 in Nk by lia.
           rewrite nth_error_firstn in Nk.
           destruct (Nat.ltb_spec (stepNumber st) (stepNumber st + 1)); [|lia].
           rewrite nth_error_app2 in Nk' by lia.
           rewrite E in Nk'.
           replace (S (stepNumber st) - (stepNumber st + 1)) with 0 in Nk' by lia.
           simpl in Nk'. injection Nk' as <-.
           assert (b = current) by congruence. subst b.
           split; [exact W|]. exists i. split; [exact Sq|].
           rewrite P. reflexivity.
        -- apply nth_error_lt in Nk'.
           rewrite length_app, E in Nk'. simpl in Nk'. lia.
      * rewrite length_app, E. simpl. lia.
      * rewrite P, Nat.negb_even, Nat.add_1_r, Nat.even_succ. reflexivity.
  - split; [exact R|]. split; [exact J | reflexivity].
Qed.

(** X18.  Every state the game gets into by clicks and by jumps to
    existing steps keeps a history that is the record of a game (nine
    empty squares first, then one mark at a time on an empty square of a
    board without winner, X and O in turn), a step that is in the
    history, and the turn that belongs to the step: X is next exactly
    at the even steps. *)
Theorem game_history_is_a_game_record (st : gameState) :
  reachable calculateWinner st ->
  gameRecord calculateWinner (history st)
  /\ stepNumber st < List.length (history st)
  /\ xIsNext st = Nat.even (stepNumber st).
Proof. apply reachable_gameInv. Qed.

(** X19.  In such a state neither a click nor rendering throws: there is
    a current board to click on and to show.  A jump past the end of the
    history, in contrast, leaves a state that cannot be rendered. *)
Theorem game_never_throws (st : gameState) :
  reachable calculateWinner st ->
  (forall i, exists st', handleClick calculateWinner st i = Some st')
  /\ (exists view, render calculateWinner st = Some view)
  /\ (forall step, List.length (history st) <= step ->
                   render calculateWinner (jumpTo st step) = None).
Proof.
  intros Re. destruct (reachable_gameInv st Re) as [_ [L _]].
  destruct (current_board st L) as [E [N [current Cur]]].
  split; [|split].
  - intros i. unfold handleClick. cbv zeta. rewrite N, Cur.
    destruct (_ || _); eauto.
  - unfold render. rewrite Cur. eauto.
  - intros step G. unfold render, jumpTo. cbn [history stepNumber].
    apply nth_error_None in G. rewrite G. reflexivity.
Qed.

Lemma record_marks (boards : list board) :
  gameRecord calculateWinner boards ->
  forall k b,
    nth_error boards k = Some b ->
    marks X b + marks O b = k
    /\ marks X b = marks O b + (if Nat.even k then 0 else 1).
Proof.
  intros [Z R]. induction k as [|k IH]; intros b N.
  - assert (b = repeat None 9) by congruence. subst b. split; reflexivity.
  - destruct (nth_error boards k) as [b0|] eqn:N0.
    + destruct (IH b0 eq_refl) as [S1 S2].
      destruct (R k b0 b N0 N) as [_ [i [Em ->]]].
      rewrite !(marks_setSquare _ b0 i _ Em).
      rewrite Nat.even_succ, <- Nat.negb_even.
      destruct (Nat.even k); simpl in *; lia.
    + apply nth_error_None in N0. apply nth_error_lt in N. lia.
Qed.

(** X20.  In every reachable state the board of step [k] holds [k]
    marks, as many X as O at an even step and one X more at an odd one. *)
Theorem game_board_has_one_mark_per_step (st : gameState) :
  reachable calculateWinner st ->
  forall k b,
    nth_error (history st) k = Some b ->
    marks X b + marks O b = k
    /\ marks X b = marks O b + (if Nat.even k then 0 else 1).
Proof.
  intros Re. apply record_marks.
  apply (proj1 (reachable_gameInv st Re)).
Qed.

(** X21.  A click in a reachable state either changes nothing, which is
    the case exactly when the current board has a winner or the square
    is taken, or it puts the mark of the player whose turn it is on the
    square, leaves every other square as it is, makes the new board the
    last of the history (the boards after the current step are dropped),
    moves the step to it and passes the turn. *)
Theorem game_click_marks_an_empty_square (st st' : gameState) (i : nat) :
  reachable calculateWinner st ->
  handleClick calculateWinner st i = Some st' ->
  exists current,
    nth_error (history st) (stepNumber st) = Some current
    /\ ((st' = st
         /\ (calculateWinner current <> None \/ square current i <> None))
        \/ (calculateWinner current = None
            /\ square current i = None
            /\ exists next,
                 history st'
                 = firstn (stepNumber st + 1) (history st) ++ [next]
                 /\ square next i = Some (if xIsNext st then X else O)
                 /\ (forall j, j <> i -> square next j = square current j)
                 /\ stepNumber st' = stepNumber st + 1
                 /\ List.length (history st') = stepNumber st' + 1
                 /\ xIsNext st' = negb (xIsNext st))).
Proof.
  intros Re C. destruct (reachable_gameInv st Re) as [_ [L _]].
  destruct (handleClick_cases st st' i L C)
    as [current [Cur [[-> B] | [W [S ->]]]]];
    exists current; (split; [exact Cur|]).
  - left. auto.
  - right. split; [exact W|]. split; [exact S|].
    eexists. cbn [history stepNumber xIsNext].
    split; [reflexivity|].
    split; [apply square_setSquare_same|].
    split; [intros j N; apply square_setSquare_other; congruence|].
    split; [reflexivity|]. split; [|reflexivity].
    destruct (current_board st L) as [E _].
    rewrite length_app, E. simpl. lia.
Qed.

End GameProperties.

Section GameStatus.

Variable calculateWinner : board -> option player.

(** X24.  What a reachable state shows is true of the game: with a
    winner on the current board the status line names the winner and no
    click changes anything; without one it names the player whose mark
    the next click on an empty square puts on the board, X at the even
    steps and O at the odd ones. *)
Theorem game_status_tells_the_next_mark (st : gameState) :
  reachable calculateWinner st ->
  exists status current,
    nth_error (history st) (stepNumber st) = Some current
    /\ render calculateWinner st = Some (status, calculateWinner current, current)
    /\ (forall w, calculateWinner current = Some w ->
                  status = lit "Winner: " ++ playerName w
                  /\ forall i, handleClick calculateWinner st i = Some st)
    /\ (calculateWinner current = None ->
        exists p,
          p = (if Nat.even (stepNumber st) then X else O)
          /\ status = lit "Next player: " ++ playerName p
          /\ forall i st',
               square current i = None ->
               handleClick calculateWinner st i = Some st' ->
               exists next,
                 history st' = firstn (stepNumber st + 1) (history st) ++ [next]
                 /\ square next i = Some p).
Proof.
  intros Re. destruct (reachable_gameInv calculateWinner st Re) as [_ [L P]].
  destruct (current_board st L) as [E [N [current Cur]]].
  exists (match calculateWinner current with
          | Some w => lit "Winner: " ++ playerName w
          | None => lit "Next player: " ++ (if xIsNext st then lit "X" else lit "O")
          end), current.
  split; [exact Cur|]. split; [unfold render; rewrite Cur; reflexivity|].
  split.
  - intros w W. rewrite W. split; [reflexivity|].
    intros i. unfold handleClick. cbv zeta. rewrite N, Cur, W. reflexivity.
  - intros W. rewrite W. exists (if Nat.even (stepNumber st) then X else O).
    split; [reflexivity|]. split.
    + rewrite P. destruct (Nat.even (stepNumber st)); reflexivity.
    + intros i st' Sq C.
      destruct (handleClick_cases calculateWinner st st' i L C)
        as [current' [Cur' [[-> [B | B]] | [_ [_ ->]]]]];
        assert (current' = current) by congruence; subst current'.
      * congruence.
      * congruence.
      * eexists. cbn [history]. split; [reflexivity|].
        rewrite <- P. apply square_setSquare_same.
Qed.

End GameStatus.

(* ================================================================== *)
(** * The further properties at work on the samples *)
(* ================================================================== *)

Lemma sampleSnapshot_loaded :
  loadResources (H := basicHost Posix) sampleTree = Some sampleSnapshot.
Proof. vm_compute. reflexivity. Qed.

Lemma sampleTree_valid : validTree (H := basicHost Posix) sampleTree = true.
Proof. vm_compute. reflexivity. Qed.

Lemma appResource_in : In appResource sampleSnapshot.
Proof. apply nth_In. vm_compute. lia. Qed.

Lemma sampleGame_reachable : reachable threeInARow sampleGame.
Proof.
  apply reachClick
    with (st := {| history := [repeat None 9; setSquare (repeat None 9) 4 X];
                   stepNumber := 1; xIsNext := false |}) (i := 0).
  - apply reachClick with (st := initialGame) (i := 4).
    + apply reachInitial.
    + reflexivity.
  - reflexivity.
Qed.

(** The sample snapshot is within the file budget. *)
Lemma snapshot_at_most_max_files_witness :
  (Z.of_nat (List.length sampleSnapshot) <= MAX_FILES)%Z.
Proof.
  exact (snapshot_at_most_max_files (H := basicHost Posix)
           sampleTree sampleSnapshot sampleSnapshot_loaded).
Defined.

(** No NUL in the text of [src/App.js]. *)
Lemma snapshot_texts_without_nul_witness : ~ In 0%N (text appResource).
Proof.
  exact (snapshot_texts_without_nul (H := basicHost Posix)
           sampleTree sampleSnapshot sampleSnapshot_loaded
           appResource appResource_in).
Defined.

(** The file behind the resource for [src/App.js]. *)
Lemma resource_identifies_its_file_witness :
  exists dirs n c,
    fileAt sampleTree dirs n c
    /\ path appResource = join [slash] (dirs ++ [n])
    /\ uri appResource = lit "file:///" ++ path appResource
    /\ (n <> [] -> name appResource = n).
Proof.
  exact (resource_identifies_its_file (H := basicHost Posix)
           sampleTree sampleSnapshot sampleTree_valid sampleSnapshot_loaded
           appResource appResource_in).
Defined.

(** The text of the resource for [src/App.js] is the content of the
    file. *)
Lemma text_is_content_or_marked_prefix_witness :
  exists dirs n c,
    fileAt sampleTree dirs n c
    /\ path appResource = join [slash] (dirs ++ [n])
    /\ text appResource = c.
Proof.
  destruct (text_is_content_or_marked_prefix (H := basicHost Posix)
              sampleTree sampleSnapshot sampleTree_valid sampleSnapshot_loaded
              appResource appResource_in)
    as [dirs [n [c [F [P [T _]]]]]].
  exists dirs, n, c. split; [exact F|]. split; [exact P|].
  exact (proj1 (T eq_refl)).
Defined.

(** The paths and the uris of the sample snapshot are all different. *)
Lemma snapshot_paths_unique_witness :
  NoDup (map path sampleSnapshot) /\ NoDup (map uri sampleSnapshot).
Proof.
  exact (snapshot_paths_unique (H := basicHost Posix)
           sampleTree sampleSnapshot sampleTree_valid sampleSnapshot_loaded).
Defined.

(** The sample context gives [src/App.js] back under its uri. *)
Lemma snapshot_resource_round_trip_witness :
  getIn sampleContext (uri appResource)
  = {| contents := [ {| content_uri := uri appResource;
                        content_mimeType := mimeType appResource;
                        content_text := text appResource |} ] |}.
Proof.
  exact (snapshot_resource_round_trip (H := basicHost Posix)
           sampleTree sampleSnapshot sampleContext
           sampleTree_valid sampleSnapshot_loaded eq_refl
           appResource appResource_in).
Defined.

(** The sample snapshot holds all four candidates of the sample tree, in
    ascending order. *)
Lemma snapshot_is_prefix_of_candidates_witness :
  map path sampleSnapshot
  = firstn (List.length sampleSnapshot)
           (candidatePaths (H := basicHost Posix) sampleTree)
  /\ ascending (H := basicHost Posix)
               (candidatePaths (H := basicHost Posix) sampleTree)
  /\ (In (lit "src/App.js") (candidatePaths (H := basicHost Posix) sampleTree)
      <-> eligiblePath (H := basicHost Posix) sampleTree (lit "src/App.js")).
Proof.
  pose proof (snapshot_is_prefix_of_candidates (H := basicHost Posix)
                sampleTree sampleSnapshot sampleSnapshot_loaded) as T.
  split; [exact (proj1 T)|]. split.
  - exact (proj2 (proj2 T) (basicHost_consistent Posix)).
  - exact (proj1 (proj2 T) sampleTree_valid (lit "src/App.js")).
Defined.

(** Four candidates, four resources. *)
Lemma snapshot_count_witness :
  (totalChars sampleSnapshot < MAX_TOTAL_CHARS)%Z
  /\ List.length sampleSnapshot
     = Nat.min (Z.to_nat MAX_FILES)
               (List.length (candidatePaths (H := basicHost Posix) sampleTree)).
Proof.
  assert (T : (totalChars sampleSnapshot < MAX_TOTAL_CHARS)%Z)
    by (vm_compute; reflexivity).
  split; [exact T|].
  exact (snapshot_count (H := basicHost Posix)
           sampleTree sampleSnapshot sampleSnapshot_loaded T).
Defined.

(** The mime type of [src/App.js]. *)
Lemma snapshot_mimeTypes_known_witness :
  In (mimeType appResource) (mimeTypes) /\ mimeType appResource <> [].
Proof.
  exact (proj2 (snapshot_mimeTypes_known (H := basicHost Posix)
                  sampleTree sampleSnapshot sampleSnapshot_loaded
                  appResource appResource_in)).
Defined.

(** A Windows path, normalized. *)
Lemma toPosixPath_replaces_separators_witness :
  ~ In backslash
       (toPosixPath (H := basicHost Win32) (lit "src" ++ [backslash] ++ lit "App.js"))
  /\ toPosixPath (H := basicHost Posix) (lit "src/App.js") = lit "src/App.js".
Proof.
  split.
  - exact (proj1 (proj2 (proj2 (proj2
             (toPosixPath_replaces_separators (H := basicHost Win32)
                (lit "src" ++ [backslash] ++ lit "App.js"))))) eq_refl).
  - exact (proj2 (proj2 (proj2 (proj2
             (toPosixPath_replaces_separators (H := basicHost Posix)
                (lit "src/App.js"))))) eq_refl).
Defined.



(** With the network down, a listing and a summary. *)
Lemma failed_request_serves_fallback_witness :
  requestFails (networkDown 0)
  /\ map snd (fst (performAll (H := basicHost Posix) networkDown freshSession
                              [ListResources None; GetSummary]))
     = [ Fulfilled (AListing []);
         Fulfilled (ASummary (lit "No local project context is available.")) ].
Proof.
  assert (R : requestFails (networkDown 0)) by exact I.
  split; [exact R|].
  exact (failed_request_serves_fallback (H := basicHost Posix) networkDown
           [ListResources None; GetSummary] R).
Defined.

(** What is listed for ["app"] is found. *)
Lemma listed_uri_is_found_witness :
  In (describe appResource)
     (listIn (H := basicHost Posix) sampleContext (Some (lit "app")))
  /\ exists r,
       In r (resources sampleContext)
       /\ uri r = uri appResource
       /\ getIn sampleContext (uri appResource)
          = {| contents :=
                 [ {| content_uri := uri appResource;
                      content_mimeType := or_else (mimeType r) (lit "text/plain");
                      content_text := text r |} ] |}.
Proof.
  assert (L : In (describe appResource)
                 (listIn (H := basicHost Posix) sampleContext (Some (lit "app"))))
    by (vm_compute; left; reflexivity).
  split; [exact L|].
  exact (listed_uri_is_found (H := basicHost Posix) sampleContext
           (Some (lit "app")) (describe appResource) L).
Defined.

(** What ["app.js"] lists, ["app"] lists. *)
Lemma refined_search_narrows_witness :
  includes (queryOf (H := basicHost Posix) (Some (lit "app.js")))
           (queryOf (H := basicHost Posix) (Some (lit "app"))) = true
  /\ In (describe appResource)
        (listIn (H := basicHost Posix) sampleContext (Some (lit "app.js")))
  /\ In (describe appResource)
        (listIn (H := basicHost Posix) sampleContext (Some (lit "app"))).
Proof.
  assert (Q : includes (queryOf (H := basicHost Posix) (Some (lit "app.js")))
                       (queryOf (H := basicHost Posix) (Some (lit "app"))) = true)
    by (vm_compute; reflexivity).
  assert (L : In (describe appResource)
                 (listIn (H := basicHost Posix) sampleContext (Some (lit "app.js"))))
    by (vm_compute; left; reflexivity).
  split; [exact Q|]. split; [exact L|].
  exact (refined_search_narrows (H := basicHost Posix) sampleContext
           (Some (lit "app")) (Some (lit "app.js")) (describe appResource) Q L).
Defined.

(** The sample message has three lines, the second one empty. *)
Lemma getMessageText_one_line_per_part_witness :
  split 10 (getMessageText (VArray sampleMessage))
  = [lit "Hello"; []; lit "world"].
Proof.
  refine (proj1 (getMessageText_one_line_per_part sampleMessage) _ _).
  - discriminate.
  - repeat constructor; vm_compute; intuition discriminate.
Defined.

(** A message is submitted, blanks are not. *)
Lemma onSubmit_needs_text_witness :
  onSubmit (lit " hi ") false = true.
Proof.
  apply (proj2 (onSubmit_needs_text (lit " hi ") false)).
  split; [reflexivity|]. exists 104%N. split; [vm_compute; tauto | reflexivity].
Defined.

(** The sample game is the record of a game, at step two with X next. *)
Lemma game_history_is_a_game_record_witness :
  reachable threeInARow sampleGame
  /\ gameRecord threeInARow (history sampleGame)
  /\ stepNumber sampleGame < List.length (history sampleGame).
Proof.
  pose proof (game_history_is_a_game_record threeInARow sampleGame
                sampleGame_reachable) as T.
  split; [exact sampleGame_reachable|]. split; [exact (proj1 T)|].
  exact (proj1 (proj2 T)).
Defined.

(** The sample game can be clicked and rendered; a jump to step seven
    cannot be rendered. *)
Lemma game_never_throws_witness :
  (exists st', handleClick threeInARow sampleGame 8 = Some st')
  /\ render threeInARow (jumpTo sampleGame 7) = None.
Proof.
  pose proof (game_never_throws threeInARow sampleGame sampleGame_reachable) as T.
  split; [exact (proj1 T 8)|].
  apply (proj2 (proj2 T) 7). simpl. lia.
Defined.

(** Two marks at step two, one of each player. *)
Lemma game_board_has_one_mark_per_step_witness :
  marks X (setSquare (setSquare (repeat None 9) 4 X) 0 O)
  + marks O (setSquare (setSquare (repeat None 9) 4 X) 0 O) = 2.
Proof.
  exact (proj1 (game_board_has_one_mark_per_step threeInARow sampleGame
                  sampleGame_reachable 2 _ eq_refl)).
Defined.

(** A click on the taken centre of the sample game changes nothing, for
    the square is taken. *)
Lemma game_click_marks_an_empty_square_witness :
  handleClick threeInARow sampleGame 4 = Some sampleGame
  /\ exists current,
       nth_error (history sampleGame) (stepNumber sampleGame) = Some current
       /\ (threeInARow current <> None \/ square current 4 <> None).
Proof.
  assert (C : handleClick threeInARow sampleGame 4 = Some sampleGame)
    by reflexivity.
  split; [exact C|].
  destruct (game_click_marks_an_empty_square threeInARow sampleGame sampleGame 4
              sampleGame_reachable C)
    as [current [Cur [[_ B] | [_ [_ [next [_ [_ [_ [E _]]]]]]]]]].
  - exists current. split; [exact Cur | exact B].
  - simpl in E. discriminate E.
Defined.

(** The sample game shows that X is next. *)
Lemma game_status_tells_the_next_mark_witness :
  exists status current,
    render threeInARow sampleGame = Some (status, threeInARow current, current)
    /\ (threeInARow current = None ->
        exists p, p = X /\ status = lit "Next player: " ++ playerName p).
Proof.
  destruct (game_status_tells_the_next_mark threeInARow sampleGame
              sampleGame_reachable)
    as [status [current [_ [R [_ N]]]]].
  exists status, current. split; [exact R|].
  intros W. destruct (N W) as [p [E [S _]]]. exists p. split; [exact E | exact S].
Defined.
